(** * Circular top-k evaluation and oriented-box reconstruction

    A shallow embedding of the two algorithmic cores of the repository:

    - [Val]: [CalculateTopk_and_GetWrongSample] of [classify/val.py], the
      wrap-around angular bias, the top-1 / top-K accuracy under a tolerance
      and the threshold sweep;
    - [ChooseBox]: [rotate_point], [check_neareat_coord] and the body of the
      drawing loop of [classify/choosebox_and_draw.py].

    Integer tensors are lists of rows of [Z]; the 0/1 float tensors and their
    means are rationals ([Q]), the mean of an empty column being NaN ([None]).
    The geometry is carried out over the reals, the idealisation of the
    binary64 arithmetic of the script. *)

From Stdlib Require Import ZArith List Lia Bool QArith Qminmax.
From Stdlib Require Import Reals Lra Psatz.
From Stdlib Require Import Permutation Sorted.
Import ListNotations.

(** ** Exceptions and the error monad *)

Inductive exn : Type :=
| IndexError      (* index out of range on a tensor or a list *)
| ValueError      (* min() of an empty sequence *)
| RuntimeError.   (* reduction over an empty dimension *)

Inductive result (A : Type) : Type :=
| Ok (a : A)
| Err (e : exn).

Arguments Ok {A} a.
Arguments Err {A} e.

Definition bind {A B : Type} (r : result A) (k : A -> result B) : result B :=
  match r with
  | Ok a => k a
  | Err e => Err e
  end.

Notation "x <- e ;; k" := (bind e (fun x => k))
  (at level 61, e at next level, right associativity).
Notation "' pat <- e ;; k" := (bind e (fun x => match x with pat => k end))
  (at level 61, pat pattern, e at next level, right associativity).

Fixpoint mapM {A B : Type} (f : A -> result B) (l : list A) : result (list B) :=
  match l with
  | [] => Ok []
  | a :: l' => b <- f a ;; bs <- mapM f l' ;; Ok (b :: bs)
  end.

(** ** classify/val.py *)

Module Val.

Open Scope Z_scope.

(** [abs( bias_topk[i]-target )], elementwise on one row. *)
Definition abs_sub (row : list Z) (target : Z) : list Z :=
  map (fun p => Z.abs (p - target)) row.

(** [torch.where( b<=180, b, 360-b )], elementwise on one row. *)
Definition wrap180 (row : list Z) : list Z :=
  map (fun b => if b <=? 180 then b else 360 - b) row.

(** The bias of one prediction against one target (lines 60-61 on a single
    entry). *)
Definition bias_of (p target : Z) : Z :=
  let b := Z.abs (p - target) in
  if b <=? 180 then b else 360 - b.

(** What the per-sample loop accumulates besides the bias tensor. *)
Record loop_state : Type := {
  wrong_preds : list (Z * Z);
  large_bias_count : nat;
  samll_bias_count : nat;
  correct_bias_count : nat;
  bias_ori : list Z
}.

Definition init_state : loop_state :=
  {| wrong_preds := []; large_bias_count := 0; samll_bias_count := 0;
     correct_bias_count := 0; bias_ori := [] |}.

Definition record_sample (threshold p0 target b0 : Z) (st : loop_state)
  : loop_state :=
  let wp := if b0 >? threshold then wrong_preds st ++ [(p0, target)]
            else wrong_preds st in
  let '(lg, sm, co) :=
    if b0 >=? 170 then (S (large_bias_count st), samll_bias_count st,
                        correct_bias_count st)
    else if b0 <=? 5 then (large_bias_count st, S (samll_bias_count st),
                           correct_bias_count st)
    else (large_bias_count st, samll_bias_count st,
          S (correct_bias_count st)) in
  {| wrong_preds := wp; large_bias_count := lg; samll_bias_count := sm;
     correct_bias_count := co; bias_ori := bias_ori st ++ [b0] |}.

(** [for i, target in enumerate(targets)]: row [i] of the two cloned tensors
    is overwritten by its bias; a row index past the tensor, or column 0 of
    an empty row, raises.  Rows of [pred] beyond [len(targets)] stay as they
    are.  The result is the final [bias_topk] with the accumulated state. *)
Fixpoint sample_loop (threshold : Z) (pred pred_post : list (list Z))
    (targets : list Z) (st : loop_state)
  : result (list (list Z) * loop_state) :=
  match targets with
  | [] => Ok (pred, st)
  | target :: targets' =>
    match pred, pred_post with
    | row :: pred', row_post :: pred_post' =>
      let bias := wrap180 (abs_sub row target) in
      let bias_post := wrap180 (abs_sub row_post target) in
      match bias, row with
      | b0 :: _, p0 :: _ =>
        '(rest, st') <- sample_loop threshold pred' pred_post' targets'
                          (record_sample threshold p0 target b0 st) ;;
        Ok (bias :: rest, st')
      | _, _ => Err IndexError
      end
    | _, _ => Err IndexError
    end
  end.

(** [torch.where( bias_topk <= t, 1, 0 ).float()] *)
Definition where_le (bias_topk : list (list Z)) (t : Z) : list (list Q) :=
  map (map (fun b => if b <=? t then 1%Q else 0%Q)) bias_topk.

(** [correct[:, 0]] *)
Definition column0 (correct : list (list Q)) : result (list Q) :=
  mapM (fun row => match row with
                   | c :: _ => Ok c
                   | [] => Err IndexError
                   end) correct.

(** [correct.max(1).values] *)
Definition row_max (row : list Q) : result Q :=
  match row with
  | [] => Err RuntimeError
  | c :: cs => Ok (fold_left Qmax cs c)
  end.

Definition max1 (correct : list (list Q)) : result (list Q) :=
  mapM row_max correct.

Definition sumQ (l : list Q) : Q := fold_right Qplus 0%Q l.

(** [.mean(0)] of one column; the mean of no element is NaN. *)
Definition mean (col : list Q) : option Q :=
  match col with
  | [] => None
  | _ => Some (sumQ col / inject_Z (Z.of_nat (length col)))%Q
  end.

(** [correct], [acc = torch.stack((correct[:, 0], correct.max(1).values),
    dim=1)] and [acc.mean(0).tolist()] for one threshold. *)
Definition accuracy (bias_topk : list (list Z)) (t : Z)
  : result (list (list Q) * list (Q * Q) * (option Q * option Q)) :=
  let correct := where_le bias_topk t in
  c0 <- column0 correct ;;
  mx <- max1 correct ;;
  let acc := combine c0 mx in
  Ok (correct, acc, (mean (map fst acc), mean (map snd acc))).

(** [range(threshold+1)] *)
Definition range_upto (threshold : Z) : list Z :=
  map Z.of_nat (seq 0 (Z.to_nat (threshold + 1))).

(** The sweep loop; [correct] and [acc] are rebound at every turn. *)
Fixpoint sweep (bias_topk : list (list Z)) (ts : list Z)
    (correct : list (list Q)) (acc : list (Q * Q))
    (topk_list : list (option Q * option Q))
  : result (list (list Q) * list (Q * Q) * list (option Q * option Q)) :=
  match ts with
  | [] => Ok (correct, acc, topk_list)
  | i :: ts' =>
    '(correct', acc', m) <- accuracy bias_topk i ;;
    sweep bias_topk ts' correct' acc' (topk_list ++ [m])
  end.

Record topk_result : Type := {
  top1 : option Q;
  top5 : option Q;
  res_wrong_preds : list (Z * Z);
  res_correct : list (list Q);
  res_bias_topk : list (list Z);
  res_bias_ori : list Z;
  res_topk_list : list (option Q * option Q);
  res_acc : list (Q * Q);
  res_buckets : nat * nat * nat   (* printed: correct, large, small *)
}.

(** [CalculateTopk_and_GetWrongSample] with [post_process=False]. *)
Definition CalculateTopk_and_GetWrongSample
    (pred pred_post : list (list Z)) (targets : list Z) (threshold : Z)
  : result topk_result :=
  '(bias_topk, st) <- sample_loop threshold pred pred_post targets init_state ;;
  '(correct, acc, (t1, t5)) <- accuracy bias_topk threshold ;;
  '(correct', acc', topk_list) <-
     sweep bias_topk (range_upto threshold) correct acc [] ;;
  Ok {| top1 := t1; top5 := t5;
        res_wrong_preds := wrong_preds st;
        res_correct := correct';
        res_bias_topk := bias_topk;
        res_bias_ori := bias_ori st;
        res_topk_list := topk_list;
        res_acc := acc';
        res_buckets := (correct_bias_count st, large_bias_count st,
                        samll_bias_count st) |}.

(** *** The specification's vocabulary *)

(** The circular distance as the specification words it. *)
Definition circular_distance (a b : Z) : Z :=
  Z.min (Z.abs (a - b)) (360 - Z.abs (a - b)).

Definition is_angle (a : Z) : Prop := 0 <= a < 360.

(** A sample is a ranked row with its ground truth. *)
Definition top1_hit (t : Z) (s : list Z * Z) : bool :=
  match fst s with
  | [] => false
  | p0 :: _ => circular_distance p0 (snd s) <=? t
  end.

Definition topk_hit (t : Z) (s : list Z * Z) : bool :=
  existsb (fun p => circular_distance p (snd s) <=? t) (fst s).

Definition count_hits (hit : list Z * Z -> bool) (pred : list (list Z))
    (targets : list Z) : nat :=
  length (filter hit (combine pred targets)).

Definition fraction (hits n : nat) : Q :=
  (inject_Z (Z.of_nat hits) / inject_Z (Z.of_nat n))%Q.

(** An [N x K] tensor. *)
Definition has_shape (n k : nat) (m : list (list Z)) : Prop :=
  length m = n /\ Forall (fun row => length row = k) m.

Definition nonempty_rows (m : list (list Z)) : Prop :=
  Forall (fun row => row <> []) m.

(** Equality of a float result with a rational, NaN being equal to nothing. *)
Definition is_value (o : option Q) (q : Q) : Prop :=
  match o with
  | Some x => (x == q)%Q
  | None => False
  end.

Definition le_value (o1 o2 : option Q) : Prop :=
  match o1, o2 with
  | Some x, Some y => (x <= y)%Q
  | _, _ => False
  end.

(** The bias tensor of a batch whose rows pair off with the targets. *)
Definition bias_rows (pred : list (list Z)) (targets : list Z)
  : list (list Z) :=
  map (fun s => map (fun p => bias_of p (snd s)) (fst s)) (combine pred targets).

(** The float of a truth value. *)
Definition ind (b : bool) : Q := if b then 1%Q else 0%Q.

Definition head_le (t : Z) (row : list Z) : bool :=
  match row with
  | [] => false
  | b0 :: _ => b0 <=? t
  end.

Definition any_le (t : Z) (row : list Z) : bool :=
  existsb (fun b => b <=? t) row.

(** The two means of [accuracy], computed without the intermediate
    tensors. *)
Definition acc_pair (bias_topk : list (list Z)) (t : Z)
  : option Q * option Q :=
  (mean (map (fun row => ind (head_le t row)) bias_topk),
   mean (map (fun row => ind (any_le t row)) bias_topk)).

(** *** Further vocabulary for the loop and its callers *)

(** [y[:, 0]] on an integer tensor. *)
Definition column0Z (y : list (list Z)) : result (list Z) :=
  mapM (fun row => match row with
                   | p :: _ => Ok p
                   | [] => Err IndexError
                   end) y.

(** [Guas_Compare]: the number of rows whose first entries differ. *)
Definition Guas_Compare (y y_gau : list (list Z)) : result nat :=
  c <- column0Z y ;;
  c' <- column0Z y_gau ;;
  Ok (length (filter (fun xy => negb (fst xy =? snd xy)) (combine c c'))).

(** The rank-0 prediction of a sample and its bias. *)
Definition top1_pred (s : list Z * Z) : Z := hd 0 (fst s).
Definition top1_bias (s : list Z * Z) : Z := bias_of (top1_pred s) (snd s).

(** One turn of the per-sample loop on the accumulated state. *)
Definition step_sample (threshold : Z) (st : loop_state) (s : list Z * Z)
  : loop_state :=
  record_sample threshold (top1_pred s) (snd s) (top1_bias s) st.

Definition is_wrong (threshold : Z) (s : list Z * Z) : bool :=
  top1_bias s >? threshold.

(** The rows and targets the function accepts. *)
Definition ok_shape (pred pred_post : list (list Z)) (targets : list Z)
  : Prop :=
  (length targets <= length pred)%nat /\
  (length targets <= length pred_post)%nat /\
  nonempty_rows pred.

(** The final bias tensor: a bias row per target, the rows left over
    untouched. *)
Definition final_bias (pred : list (list Z)) (targets : list Z)
  : list (list Z) :=
  bias_rows pred targets ++ skipn (length targets) pred.

Definition angles_in_range (pred : list (list Z)) (targets : list Z) : Prop :=
  Forall (Forall is_angle) pred /\ Forall is_angle targets.

End Val.

(** ** classify/choosebox_and_draw.py *)

Module ChooseBox.

Open Scope R_scope.

(** [math.radians] *)
Definition radians (deg : R) : R := deg * (PI / 180).

(** [int(.)] on a float: truncation toward zero. *)
Definition trunc (x : R) : Z :=
  if Rle_dec 0 x then Int_part x else (- Int_part (- x))%Z.

(** [img.shape]: rows first, columns second. *)
Record image : Type := { shape0 : Z; shape1 : Z }.

(** One line [angle x y w h] of a label file, its five fields parsed: the
    angle by [int], the others by [float] (fractions of the image size). *)
Record label : Type := {
  l_angle : Z;
  l_x : R;
  l_y : R;
  l_w : R;
  l_h : R
}.

(** The size [(rw, rh)] the rotated image is resized to in
    [create_rotated45_img]. *)
Definition rotated45_size (img : image) : Z * Z :=
  let w := shape1 img in
  let h := shape0 img in
  let rw := trunc ((IZR w + IZR h) * cos (radians 45)) in
  let rh := rw in
  (rw, rh).

Definition rotate_point (x y : R) (w h : Z) (angle : R) : Z * Z :=
  let angle_rad := radians angle in
  let rw := trunc ((IZR w + IZR h) * cos (radians angle)) in
  let rh := rw in
  let x := x - IZR w / 2 in
  let y := y - IZR h / 2 in
  let x_rotated := x * cos angle_rad + y * sin angle_rad in
  let y_rotated := - x * sin angle_rad + y * cos angle_rad in
  let x_rotated := x_rotated + IZR w / 2 + (IZR rw - IZR w) / 2 in
  let y_rotated := y_rotated + IZR h / 2 + (IZR rh - IZR h) / 2 in
  (trunc x_rotated, trunc y_rotated).

(** [min(dis_list)] *)
Definition list_min (l : list R) : result R :=
  match l with
  | [] => Err ValueError
  | d :: ds => Ok (fold_left Rmin ds d)
  end.

(** [dis_list.index(v)] *)
Fixpoint list_index (v : R) (l : list R) : result nat :=
  match l with
  | [] => Err ValueError
  | d :: ds =>
    if Req_dec_T d v then Ok O
    else i <- list_index v ds ;; Ok (S i)
  end.

(** [lines[i]] *)
Definition get_line (lines : list label) (i : nat) : result label :=
  match nth_error lines i with
  | Some l => Ok l
  | None => Err IndexError
  end.

(** The entry appended to [dis_list] for one line. *)
Definition sq_dist (rx ry : R) (img : image) (line : label) : R :=
  let x := l_x line * IZR (shape1 img) in
  let y := l_y line * IZR (shape0 img) in
  (rx - x) ^ 2 + (ry - y) ^ 2.

Definition check_neareat_coord (rx ry : R) (img : image) (lines : list label)
  : result (R * R) :=
  let dis_list := map (sq_dist rx ry img) lines in
  m <- list_min dis_list ;;
  min_value <- list_index m dis_list ;;
  l <- get_line lines min_value ;;
  Ok (l_w l, l_h l).

(** The wedge reduction of the drawing loop. *)
Definition restrict_angle180 (angle : Z) : Z :=
  if (angle <? 180)%Z then angle else (angle - 180)%Z.

Definition restrict_angle90 (angle : Z) : Z :=
  let a180 := restrict_angle180 angle in
  if (a180 <=? 90)%Z then a180 else (a180 - 90)%Z.

Definition restrict_angle45 (angle : Z) : Z :=
  let a90 := restrict_angle90 angle in
  if (a90 <=? 45)%Z then a90 else (90 - a90)%Z.

(** The axis swap at the head of the loop body, with the yellow box. *)
Definition swap_axes (x y w h : R) : R * R * (Z * Z * Z * Z) :=
  if Rgt_dec w h then
    let w' := h in
    let h' := w in
    (w', h', (trunc (x - h' / 2), trunc (x + h' / 2),
              trunc (y - w' / 2), trunc (y + w' / 2)))
  else
    (w, h, (trunc (x - w / 2), trunc (x + w / 2),
            trunc (y - h / 2), trunc (y + h / 2))).

(** [restrict_angle90 > 22.5 and restrict_angle90 < 67.5] *)
Definition in_ambiguous_zone (a90 : Z) : bool :=
  if Rgt_dec (IZR a90) 22.5 then
    if Rlt_dec (IZR a90) 67.5 then true else false
  else false.

(** The two branches that produce [(rw, rh)]. *)
Definition extents_from_rotated (x y : R) (img r_img : image)
    (rlines : list label) : result (R * R) :=
  let '(rx, ry) := rotate_point x y (shape1 img) (shape0 img) 45 in
  '(rw, rh) <- check_neareat_coord x y r_img rlines ;;
  let rw := rw * IZR (shape1 img) in
  let rh := rh * IZR (shape0 img) in
  if Rgt_dec rw rh then Ok (rh, rw) else Ok (rw, rh).

Definition extents_by_trigonometry (w h cos sin : R) : R * R :=
  let rw := w * cos - h * sin in
  let rh := (h - rw * sin) / cos in
  (rw, rh).

Definition point : Type := (Z * Z)%type.

(** The four corners [pt1 .. pt4] of the red box. *)
Definition corners (x y rw rh : R) (angle : Z) : point * point * point * point :=
  let r_cos := cos (radians (IZR angle) + PI / 2) in
  let r_sin := sin (radians (IZR angle) + PI / 2) in
  ((trunc ((- rw / 2 * r_cos - rh / 2 * r_sin) + x),
    trunc ((rw / 2 * r_sin - rh / 2 * r_cos) + y)),
   (trunc ((rw / 2 * r_cos - rh / 2 * r_sin) + x),
    trunc ((- rw / 2 * r_sin - rh / 2 * r_cos) + y)),
   (trunc ((rw / 2 * r_cos + rh / 2 * r_sin) + x),
    trunc ((- rw / 2 * r_sin + rh / 2 * r_cos) + y)),
   (trunc ((- rw / 2 * r_cos + rh / 2 * r_sin) + x),
    trunc ((rw / 2 * r_sin + rh / 2 * r_cos) + y))).

(** What one turn of the inner loop draws for a line. *)
Record drawing : Type := {
  norm_w : R;                         (* w after the swap *)
  norm_h : R;                         (* h after the swap *)
  yellow_box : Z * Z * Z * Z;         (* xmin, xmax, ymin, ymax *)
  red_extents : option (R * R);       (* rw, rh when a red box is drawn *)
  red_box : option (point * point * point * point);
  text_at : Z * point                 (* int(angle) at (int(x), int(y)) *)
}.

(** The body of [for i, line in enumerate( txt.readlines() )]. *)
Definition draw_line (img r_img : image) (rlines : list label) (line : label)
  : result drawing :=
  let angle := l_angle line in
  let x := l_x line * IZR (shape1 img) in
  let y := l_y line * IZR (shape0 img) in
  let w := l_w line * IZR (shape1 img) in
  let h := l_h line * IZR (shape0 img) in
  let '(w, h, yellow) := swap_axes x y w h in
  let a90 := restrict_angle90 angle in
  let a45 := restrict_angle45 angle in
  let text := (angle, (trunc x, trunc y)) in
  if negb (a90 =? 0)%Z && negb (a90 =? 90)%Z then
    let cos := cos (radians (IZR a45)) in
    let sin := sin (radians (IZR a45)) in
    '(rw, rh) <- (if in_ambiguous_zone a90
                  then extents_from_rotated x y img r_img rlines
                  else Ok (extents_by_trigonometry w h cos sin)) ;;
    Ok {| norm_w := w; norm_h := h; yellow_box := yellow;
          red_extents := Some (rw, rh);
          red_box := Some (corners x y rw rh angle);
          text_at := text |}
  else
    Ok {| norm_w := w; norm_h := h; yellow_box := yellow;
          red_extents := None; red_box := None; text_at := text |}.

(** The inner loop over the lines of one label file. *)
Definition draw_file (img r_img : image) (rlines : list label)
    (lines : list label) : result (list drawing) :=
  mapM (draw_line img r_img rlines) lines.

(** *** The specification's vocabulary *)

(** Index [i] is the first one at the least squared distance from [(px,py)]. *)
Definition first_nearest (px py : R) (img : image) (lines : list label)
    (i : nat) : Prop :=
  exists c, nth_error lines i = Some c /\
    (forall c', In c' lines -> sq_dist px py img c <= sq_dist px py img c') /\
    (forall j c', (j < i)%nat -> nth_error lines j = Some c' ->
                  sq_dist px py img c < sq_dist px py img c').

(** The match the specification asks for: nearest to the projected query. *)
Definition match_projected (x y : R) (img r_img : image)
    (rlines : list label) : result (R * R) :=
  let '(rx, ry) := rotate_point x y (shape1 img) (shape0 img) 45 in
  check_neareat_coord (IZR rx) (IZR ry) r_img rlines.

(** Rounding to the nearest integer, ties to even (Python's [round]). *)
Definition round_nearest (x : R) : Z :=
  let f := Int_part x in
  let d := x - IZR f in
  if Rlt_dec d (1 / 2) then f
  else if Rgt_dec d (1 / 2) then (f + 1)%Z
  else if Z.even f then f else (f + 1)%Z.

(** The unrounded projection of the specification's formula. *)
Definition projected_x (x y : R) (w h : Z) (theta : R) (side : Z) : R :=
  (x - IZR w / 2) * cos (radians theta) + (y - IZR h / 2) * sin (radians theta)
  + IZR w / 2 + (IZR side - IZR w) / 2.

Definition projected_y (x y : R) (w h : Z) (theta : R) (side : Z) : R :=
  - (x - IZR w / 2) * sin (radians theta) + (y - IZR h / 2) * cos (radians theta)
  + IZR h / 2 + (IZR side - IZR h) / 2.

(** *** Further vocabulary for the drawing loop *)

Definition rpoint : Type := (R * R)%type.

(** The corners before [int]: the arguments of the eight truncations of
    [pt1 .. pt4]. *)
Definition exact_corners (x y rw rh : R) (angle : Z)
  : rpoint * rpoint * rpoint * rpoint :=
  let r_cos := cos (radians (IZR angle) + PI / 2) in
  let r_sin := sin (radians (IZR angle) + PI / 2) in
  (((- rw / 2 * r_cos - rh / 2 * r_sin) + x,
    (rw / 2 * r_sin - rh / 2 * r_cos) + y),
   ((rw / 2 * r_cos - rh / 2 * r_sin) + x,
    (- rw / 2 * r_sin - rh / 2 * r_cos) + y),
   ((rw / 2 * r_cos + rh / 2 * r_sin) + x,
    (- rw / 2 * r_sin + rh / 2 * r_cos) + y),
   ((- rw / 2 * r_cos + rh / 2 * r_sin) + x,
    (rw / 2 * r_sin + rh / 2 * r_cos) + y)).

Definition trunc_point (p : rpoint) : point := (trunc (fst p), trunc (snd p)).




End ChooseBox.

(** ** utils/plots.py: the curves drawn from the evaluator's results *)

Module Plots.

Import Val.

(** [corrects[:, :i+1].sum()] *)
Definition prefix_sum (corrects : list (list Q)) (i : nat) : Q :=
  sumQ (map (fun row => sumQ (firstn (S i) row)) corrects).

(** The list [topk] that [Plot_Topk_CDF] plots: [corrects[0, :]] needs a
    first row, [corrects[:, 0]] a first column. *)
Definition Plot_Topk_CDF (corrects : list (list Q)) : result (list Q) :=
  match corrects with
  | [] => Err IndexError
  | row0 :: _ =>
    let topk_len := length row0 in
    _ <- column0 corrects ;;
    let batch_size := length corrects in
    Ok (map (fun i => (prefix_sum corrects i
                       / inject_Z (Z.of_nat batch_size))%Q)
          (seq 0 topk_len))
  end.

(** [Counter(l)]: the distinct values in the order of their first
    appearance, each with its number of occurrences. *)
Fixpoint counter_add (e : Z) (c : list (Z * nat)) : list (Z * nat) :=
  match c with
  | [] => [(e, 1%nat)]
  | (e', n) :: c' =>
    if (e' =? e)%Z then (e', S n) :: c' else (e', n) :: counter_add e c'
  end.

Definition Counter (l : list Z) : list (Z * nat) :=
  fold_left (fun c e => counter_add e c) l [].

(** The order of Python on the items [(elem, count)]. *)
Definition item_le (a b : Z * nat) : bool :=
  (fst a <? fst b)%Z || ((fst a =? fst b)%Z && (snd a <=? snd b)%nat).

Fixpoint insert_item (a : Z * nat) (l : list (Z * nat)) : list (Z * nat) :=
  match l with
  | [] => [a]
  | b :: l' => if item_le a b then a :: b :: l' else b :: insert_item a l'
  end.

(** [sorted(items)] *)
Definition sorted (items : list (Z * nat)) : list (Z * nat) :=
  fold_right insert_item [] items.

(** [[ float(sum(counts[:j+1])) / sum(counts) * 100 for j, count in
    enumerate(counts) ]] *)
Definition cumulative_percent (counts : list nat) : list Q :=
  map (fun j => (inject_Z (Z.of_nat (list_sum (firstn (S j) counts)))
                 / inject_Z (Z.of_nat (list_sum counts)) * 100)%Q)
    (seq 0 (length counts)).

(** One curve of [Plot_Bias_Top1_CDF]: [elements] and the rebound
    [counts]. *)
Definition bias_curve (bias : list Z) : list Z * list Q :=
  let counts_dict := sorted (Counter bias) in
  (map fst counts_dict, cumulative_percent (map snd counts_dict)).

(** The curves plotted: the median one when there is one, then the
    original one. *)
Definition Plot_Bias_Top1_CDF (bias_median : option (list Z))
    (bias_ori : list Z) : list (list Z * list Q) :=
  match bias_median with
  | Some m => [bias_curve m; bias_curve bias_ori]
  | None => [bias_curve bias_ori]
  end.

(** The occurrences a counter records for the values satisfying [p]. *)
Definition weight (p : Z -> bool) (c : list (Z * nat)) : nat :=
  list_sum (map (fun it => if p (fst it) then snd it else 0%nat) c).

(** The ordinate of the empirical distribution of [bias] at [e], in
    percent. *)
Definition percent_at_most (bias : list Z) (e : Z) : Q :=
  (inject_Z (Z.of_nat (length (filter (fun b => (b <=? e)%Z) bias)))
   / inject_Z (Z.of_nat (length bias)) * 100)%Q.

End Plots.

(** ** Concrete inputs *)

Module Inputs.

Import ChooseBox.
Open Scope R_scope.

(** A 200 x 200 image and its rotated companion, 282 x 282. *)
Definition img200 : image := {| shape0 := 200; shape1 := 200 |}.
Definition r_img282 : image := {| shape0 := 282; shape1 := 282 |}.

(** A detection at the centre of [img200], angle 30 (ambiguous zone). *)
Definition centre30 : label :=
  {| l_angle := 30; l_x := 0.5; l_y := 0.5; l_w := 0.1; l_h := 0.2 |}.

(** Two detections of the rotated frame: [cand_a] sits at pixel
    (100.11, 100.11), [cand_b] at pixel (141, 141). *)
Definition cand_a : label :=
  {| l_angle := 0; l_x := 0.355; l_y := 0.355; l_w := 0.05; l_h := 0.1 |}.
Definition cand_b : label :=
  {| l_angle := 0; l_x := 0.5; l_y := 0.5; l_w := 0.09; l_h := 0.19 |}.

(** The same centre, angle 10 (trigonometric branch) and angle 0. *)
Definition centre10 : label :=
  {| l_angle := 10; l_x := 0.5; l_y := 0.5; l_w := 0.1; l_h := 0.2 |}.
Definition centre0 : label :=
  {| l_angle := 0; l_x := 0.5; l_y := 0.5; l_w := 0.05; l_h := 0.1 |}.


End Inputs.

(** * Properties of the evaluator *)

Section CircularBias.

Import Val.
Open Scope Z_scope.

(** Lines 60-61 act entry by entry. *)
Lemma wrap180_abs_sub (row : list Z) (target : Z) :
  wrap180 (abs_sub row target) = map (fun p => bias_of p target) row.
Proof.
  unfold wrap180, abs_sub, bias_of.
  rewrite map_map. reflexivity.
Qed.

(** The code's branch on [<= 180] is the minimum of the two arcs, for any
    pair of integers. *)
Lemma bias_of_min (a b : Z) : bias_of a b = circular_distance a b.
Proof.
  unfold bias_of, circular_distance.
  destruct (Z.leb_spec (Z.abs (a - b)) 180); lia.
Qed.

Lemma bias_of_sym (a b : Z) : bias_of a b = bias_of b a.
Proof.
  unfold bias_of.
  replace (Z.abs (b - a)) with (Z.abs (a - b)) by lia.
  reflexivity.
Qed.

Lemma bias_of_range (a b : Z) :
  is_angle a -> is_angle b -> 0 <= bias_of a b <= 180.
Proof.
  unfold is_angle, bias_of. intros Ha Hb.
  destruct (Z.leb_spec (Z.abs (a - b)) 180); lia.
Qed.

Lemma bias_of_opposite (a : Z) :
  is_angle a -> bias_of a ((a + 180) mod 360) = 180.
Proof.
  unfold is_angle, bias_of. intros Ha.
  destruct (Z_lt_le_dec a 180) as [Hlt | Hge].
  - rewrite Z.mod_small by lia.
    replace (Z.abs (a - (a + 180))) with 180 by lia. reflexivity.
  - replace ((a + 180) mod 360) with (a - 180).
    + replace (Z.abs (a - (a - 180))) with 180 by lia. reflexivity.
    + apply Z.mod_unique with (q := 1); lia.
Qed.

(** C1: for angles [a], [b] in [0,360) the bias the loop computes for a
    prediction / ground-truth pair is [min(|a-b|, 360-|a-b|)]; it is
    symmetric, lies in [0,180], vanishes on equal angles and is 180 on
    opposite ones; and a whole row of the bias tensor is this distance taken
    entry by entry. *)
Theorem circular_bias_is_distance (a b : Z) :
  is_angle a -> is_angle b ->
  bias_of a b = circular_distance a b /\
  circular_distance a b = circular_distance b a /\
  0 <= circular_distance a b <= 180 /\
  circular_distance a a = 0 /\
  circular_distance a ((a + 180) mod 360) = 180 /\
  (forall row, wrap180 (abs_sub row b)
               = map (fun p => circular_distance p b) row).
Proof.
  intros Ha Hb.
  repeat split.
  - apply bias_of_min.
  - rewrite <- !bias_of_min. apply bias_of_sym.
  - rewrite <- bias_of_min. apply bias_of_range; assumption.
  - rewrite <- bias_of_min. apply bias_of_range; assumption.
  - unfold circular_distance. rewrite Z.sub_diag. reflexivity.
  - rewrite <- bias_of_min. apply bias_of_opposite; assumption.
  - intros row. rewrite wrap180_abs_sub.
    apply map_ext. intros p. apply bias_of_min.
Qed.

Lemma circular_bias_is_distance_witness :
  Val.is_angle 350 /\ Val.is_angle 10 /\
  Val.bias_of 350 10 = Val.circular_distance 350 10 /\
  Val.circular_distance 350 10 = Val.circular_distance 10 350 /\
  0 <= Val.circular_distance 350 10 <= 180 /\
  Val.circular_distance 350 350 = 0 /\
  Val.circular_distance 350 ((350 + 180) mod 360) = 180 /\
  (forall row, Val.wrap180 (Val.abs_sub row 10)
               = map (fun p => Val.circular_distance p 10) row).
Proof.
  assert (H350 : Val.is_angle 350) by (unfold Val.is_angle; lia).
  assert (H10 : Val.is_angle 10) by (unfold Val.is_angle; lia).
  split; [exact H350 | split; [exact H10 |]].
  exact (circular_bias_is_distance 350 10 H350 H10).
Defined.

End CircularBias.

Section TopkAccuracy.

Import Val.
Open Scope Z_scope.

Lemma has_shape_nonempty (n k : nat) (m : list (list Z)) :
  (0 < k)%nat -> has_shape n k m -> nonempty_rows m.
Proof.
  intros Hk [_ Hrows]. unfold nonempty_rows.
  eapply Forall_impl; [| exact Hrows].
  intros row Hlen Hnil. subst row. simpl in Hlen. lia.
Qed.

(** The per-sample loop succeeds on a well-shaped batch and leaves the bias
    of every row in [bias_topk]. *)
Lemma sample_loop_ok (threshold : Z) (targets : list Z) :
  forall pred pred_post st,
    length pred = length targets ->
    length pred_post = length targets ->
    nonempty_rows pred ->
    exists st', sample_loop threshold pred pred_post targets st
                = Ok (bias_rows pred targets, st').
Proof.
  induction targets as [| target targets IH]; intros pred pred_post st Hp Hq Hne.
  - destruct pred; [| discriminate]. simpl. eauto.
  - destruct pred as [| row pred]; [discriminate |].
    destruct pred_post as [| row_post pred_post]; [discriminate |].
    inversion Hne as [| ? ? Hrow Hrest]; subst.
    destruct row as [| p0 row]; [congruence |].
    simpl in Hp, Hq.
    destruct (IH pred pred_post
                (record_sample threshold p0 target
                   (bias_of p0 target) st)) as [st' Hst']; try lia; auto.
    exists st'.
    cbn [sample_loop]. rewrite wrap180_abs_sub. cbn [map].
    rewrite Hst'. cbn [bind].
    unfold bias_rows. cbn [combine map fst snd]. reflexivity.
Qed.

Lemma bias_rows_nonempty (pred : list (list Z)) :
  forall targets, nonempty_rows pred -> nonempty_rows (bias_rows pred targets).
Proof.
  unfold nonempty_rows, bias_rows.
  induction pred as [| row pred IH]; intros targets Hne; simpl.
  - constructor.
  - destruct targets as [| target targets]; simpl; [constructor |].
    inversion Hne; subst. constructor; auto.
    destruct row; [congruence | discriminate].
Qed.

Lemma bias_rows_length (pred : list (list Z)) (targets : list Z) :
  length pred = length targets ->
  length (bias_rows pred targets) = length pred.
Proof.
  intros H. unfold bias_rows.
  rewrite length_map, length_combine. lia.
Qed.

Lemma column0_ok (t : Z) (B : list (list Z)) :
  nonempty_rows B ->
  column0 (where_le B t) = Ok (map (fun row => ind (head_le t row)) B).
Proof.
  unfold column0, where_le.
  induction 1 as [| row B Hrow _ IH]; simpl; [reflexivity |].
  destruct row as [| b0 row]; [congruence |].
  simpl. rewrite IH. reflexivity.
Qed.

Lemma Qmax_ind (a b : bool) : Qmax (ind a) (ind b) = ind (a || b).
Proof. destruct a, b; reflexivity. Qed.

Lemma fold_max_ind (t : Z) (row : list Z) :
  forall a : bool,
    fold_left Qmax (map (fun b => if b <=? t then 1%Q else 0%Q) row) (ind a)
    = ind (a || any_le t row).
Proof.
  induction row as [| b row IH]; intros a; simpl.
  - rewrite orb_false_r. reflexivity.
  - change (if b <=? t then 1%Q else 0%Q) with (ind (b <=? t)).
    rewrite Qmax_ind, IH, orb_assoc. reflexivity.
Qed.

Lemma max1_ok (t : Z) (B : list (list Z)) :
  nonempty_rows B ->
  max1 (where_le B t) = Ok (map (fun row => ind (any_le t row)) B).
Proof.
  unfold max1, where_le.
  induction 1 as [| row B Hrow _ IH]; simpl; [reflexivity |].
  destruct row as [| b0 row]; [congruence |].
  simpl. rewrite IH. simpl.
  change (if b0 <=? t then 1%Q else 0%Q) with (ind (b0 <=? t)).
  rewrite fold_max_ind. reflexivity.
Qed.

Lemma map_fst_combine {A B : Type} (l : list A) :
  forall l' : list B, length l = length l' -> map fst (combine l l') = l.
Proof.
  induction l as [| a l IH]; intros [| b l'] H; simpl in *;
    try discriminate; try reflexivity.
  f_equal. apply IH. lia.
Qed.

Lemma map_snd_combine {A B : Type} (l : list A) :
  forall l' : list B, length l = length l' -> map snd (combine l l') = l'.
Proof.
  induction l as [| a l IH]; intros [| b l'] H; simpl in *;
    try discriminate; try reflexivity.
  f_equal. apply IH. lia.
Qed.

(** On a tensor without empty rows [accuracy] raises nothing, and its two
    means are those of [acc_pair]. *)
Lemma accuracy_ok (t : Z) (B : list (list Z)) :
  nonempty_rows B ->
  exists correct acc, accuracy B t = Ok (correct, acc, acc_pair B t).
Proof.
  intros Hne. unfold accuracy.
  rewrite (column0_ok t B Hne), (max1_ok t B Hne). cbn [bind].
  rewrite map_fst_combine, map_snd_combine by (rewrite !length_map; reflexivity).
  eauto.
Qed.

Lemma sweep_ok (B : list (list Z)) (ts : list Z) :
  nonempty_rows B ->
  forall correct acc topk_list,
  exists correct' acc',
    sweep B ts correct acc topk_list
    = Ok (correct', acc', topk_list ++ map (acc_pair B) ts).
Proof.
  intros Hne.
  induction ts as [| i ts IH]; intros correct acc topk_list; simpl.
  - rewrite app_nil_r. eauto.
  - destruct (accuracy_ok i B Hne) as (c & a & Hacc).
    rewrite Hacc. cbn [bind].
    destruct (IH c a (topk_list ++ [acc_pair B i])) as (c' & a' & Hsw).
    rewrite Hsw, <- app_assoc. simpl. eauto.
Qed.

(** The whole function on a well-shaped batch. *)
Lemma CalculateTopk_ok (n k : nat) (pred pred_post : list (list Z))
    (targets : list Z) (threshold : Z) :
  (0 < k)%nat ->
  has_shape n k pred -> has_shape n k pred_post -> length targets = n ->
  exists r,
    CalculateTopk_and_GetWrongSample pred pred_post targets threshold = Ok r /\
    res_bias_topk r = bias_rows pred targets /\
    (top1 r, top5 r) = acc_pair (bias_rows pred targets) threshold /\
    res_topk_list r
    = map (acc_pair (bias_rows pred targets)) (range_upto threshold).
Proof.
  intros Hk Hp Hq Ht.
  pose proof (has_shape_nonempty n k pred Hk Hp) as Hne.
  destruct Hp as [Hp _], Hq as [Hq _].
  destruct (sample_loop_ok threshold targets pred pred_post init_state)
    as [st Hloop]; try congruence; auto.
  pose proof (bias_rows_nonempty pred targets Hne) as HB.
  destruct (accuracy_ok threshold _ HB) as (c & a & Hacc).
  destruct (sweep_ok _ (range_upto threshold) HB c a []) as (c' & a' & Hsw).
  unfold CalculateTopk_and_GetWrongSample.
  rewrite Hloop. cbn [bind]. rewrite Hacc. cbn [bind].
  destruct (acc_pair (bias_rows pred targets) threshold) as [t1 t5] eqn:Epair.
  rewrite Hsw. cbn [bind app].
  eexists. split; [reflexivity |]. simpl. auto.
Qed.

(** Summing 0/1 floats counts the ones. *)
Lemma sumQ_ind {A : Type} (h : A -> bool) (l : list A) :
  (sumQ (map (fun x => ind (h x)) l)
   == inject_Z (Z.of_nat (length (filter h l))))%Q.
Proof.
  induction l as [| x l IH]; simpl; [reflexivity |].
  rewrite IH. destruct (h x); simpl ind.
  - cbn [length]. rewrite Nat2Z.inj_succ, <- Z.add_1_l, inject_Z_plus.
    reflexivity.
  - apply Qplus_0_l.
Qed.

Lemma mean_ind {A : Type} (h : A -> bool) (l : list A) :
  l <> [] ->
  is_value (mean (map (fun x => ind (h x)) l))
           (fraction (length (filter h l)) (length l)).
Proof.
  intros Hne. destruct l as [| x l]; [congruence |].
  unfold mean, is_value, fraction.
  cbn [map]. rewrite (sumQ_ind h (x :: l)).
  cbn [map length]. rewrite length_map. reflexivity.
Qed.

Lemma head_le_bias (t : Z) (s : list Z * Z) :
  head_le t (map (fun p => bias_of p (snd s)) (fst s)) = top1_hit t s.
Proof.
  unfold top1_hit. destruct (fst s) as [| p0 row]; simpl; [reflexivity |].
  rewrite bias_of_min. reflexivity.
Qed.

Lemma any_le_bias (t : Z) (s : list Z * Z) :
  any_le t (map (fun p => bias_of p (snd s)) (fst s)) = topk_hit t s.
Proof.
  unfold topk_hit, any_le. induction (fst s) as [| p row IH]; simpl.
  - reflexivity.
  - rewrite IH, bias_of_min. reflexivity.
Qed.

(** The two means of a bias tensor are the two fractions of hits. *)
Lemma acc_pair_fractions (pred : list (list Z)) (targets : list Z) (t : Z) :
  length pred = length targets -> pred <> [] ->
  is_value (fst (acc_pair (bias_rows pred targets) t))
           (fraction (count_hits (top1_hit t) pred targets) (length pred)) /\
  is_value (snd (acc_pair (bias_rows pred targets) t))
           (fraction (count_hits (topk_hit t) pred targets) (length pred)).
Proof.
  intros Hlen Hne.
  assert (Hc : combine pred targets <> []).
  { destruct pred; [congruence |]. destruct targets; [discriminate |].
    discriminate. }
  assert (Hn : length (combine pred targets) = length pred).
  { rewrite length_combine. lia. }
  unfold acc_pair, bias_rows, count_hits. cbn [fst snd].
  rewrite !map_map. rewrite <- Hn. split.
  - rewrite (map_ext _ (fun s => ind (top1_hit t s)))
      by (intros s; rewrite head_le_bias; reflexivity).
    apply mean_ind; assumption.
  - rewrite (map_ext _ (fun s => ind (topk_hit t s)))
      by (intros s; rewrite any_le_bias; reflexivity).
    apply mean_ind; assumption.
Qed.

(** C2: on a batch of [n] ranked lists of [k] candidates with [n] ground
    truths, the function returns, and for every threshold [t] its top-1
    accuracy is the fraction of samples whose rank-0 candidate is within [t]
    of the truth in circular distance, its top-K accuracy the fraction of
    samples with at least one of the [k] candidates within [t]. *)
Theorem topk_accuracy_is_fraction (n k : nat) (pred pred_post : list (list Z))
    (targets : list Z) (t : Z) :
  (0 < n)%nat -> (0 < k)%nat ->
  has_shape n k pred -> has_shape n k pred_post -> length targets = n ->
  exists r,
    CalculateTopk_and_GetWrongSample pred pred_post targets t = Ok r /\
    is_value (top1 r) (fraction (count_hits (top1_hit t) pred targets) n) /\
    is_value (top5 r) (fraction (count_hits (topk_hit t) pred targets) n).
Proof.
  intros Hn Hk Hp Hq Ht.
  destruct (CalculateTopk_ok n k pred pred_post targets t Hk Hp Hq Ht)
    as (r & Hr & _ & Hpair & _).
  exists r. split; [exact Hr |].
  destruct Hp as [Hp _].
  assert (Hne : pred <> []) by (intros ->; simpl in Hp; lia).
  assert (Hlen : length pred = length targets) by congruence.
  destruct (acc_pair_fractions pred targets t Hlen Hne) as [H1 H5].
  rewrite <- Hpair in H1, H5. cbn [fst snd] in H1, H5.
  rewrite Hp in H1, H5. split; assumption.
Qed.

Lemma topk_accuracy_is_fraction_witness :
  (0 < 2)%nat /\ (0 < 3)%nat /\
  Val.has_shape 2 3 [[10; 190; 50]; [200; 8; 300]] /\
  Val.has_shape 2 3 [[10; 190; 50]; [200; 8; 300]] /\
  length [15; 5] = 2%nat /\
  exists r,
    Val.CalculateTopk_and_GetWrongSample
      [[10; 190; 50]; [200; 8; 300]] [[10; 190; 50]; [200; 8; 300]]
      [15; 5] 10 = Ok r /\
    Val.is_value (Val.top1 r)
      (Val.fraction
         (Val.count_hits (Val.top1_hit 10)
            [[10; 190; 50]; [200; 8; 300]] [15; 5]) 2) /\
    Val.is_value (Val.top5 r)
      (Val.fraction
         (Val.count_hits (Val.topk_hit 10)
            [[10; 190; 50]; [200; 8; 300]] [15; 5]) 2).
Proof.
  assert (Hs : Val.has_shape 2 3 [[10; 190; 50]; [200; 8; 300]]).
  { split; [reflexivity | repeat constructor]. }
  assert (Hn : (0 < 2)%nat) by lia.
  assert (Hk : (0 < 3)%nat) by lia.
  repeat (split; [assumption || reflexivity |]).
  exact (topk_accuracy_is_fraction 2 3 _ _ [15; 5] 10 Hn Hk Hs Hs eq_refl).
Defined.

(** The scenario of the specification: one sample ranked [10, 190, 50]
    against the truth 15.  Within 10 degrees the first candidate is a hit;
    within 2 degrees none is. *)
Example scenario_threshold_10 :
  exists r,
    CalculateTopk_and_GetWrongSample [[10; 190; 50]] [[10; 190; 50]] [15] 10
    = Ok r /\
    top1 r = Some (1 # 1)%Q /\ top5 r = Some (1 # 1)%Q /\
    res_wrong_preds r = [] /\ res_bias_topk r = [[5; 175; 35]] /\
    length (res_topk_list r) = 11%nat.
Proof. eexists. split; [vm_compute; reflexivity |]. repeat split. Qed.

Example scenario_threshold_2 :
  exists r,
    CalculateTopk_and_GetWrongSample [[10; 190; 50]] [[10; 190; 50]] [15] 2
    = Ok r /\
    top1 r = Some (0 # 1)%Q /\ top5 r = Some (0 # 1)%Q /\
    res_wrong_preds r = [(10, 15)] /\
    res_topk_list r = [(Some (0 # 1), Some (0 # 1));
                       (Some (0 # 1), Some (0 # 1));
                       (Some (0 # 1), Some (0 # 1))]%Q.
Proof. eexists. split; [vm_compute; reflexivity |]. repeat split. Qed.

(** An empty row has no column 0, and an empty batch has no mean. *)
Example empty_row_raises :
  CalculateTopk_and_GetWrongSample [[]] [[]] [15] 10 = Err IndexError.
Proof. reflexivity. Qed.

Example empty_batch_is_nan :
  exists r, CalculateTopk_and_GetWrongSample [] [] [] 10 = Ok r /\
            top1 r = None /\ top5 r = None.
Proof. eexists. split; [vm_compute; reflexivity |]. split; reflexivity. Qed.

End TopkAccuracy.

Section ThresholdSweep.

Import Val.
Open Scope Z_scope.

Lemma range_upto_length (threshold : Z) :
  length (range_upto threshold) = Z.to_nat (threshold + 1).
Proof. unfold range_upto. rewrite length_map, length_seq. reflexivity. Qed.

Lemma range_upto_nth (threshold t : Z) :
  0 <= t <= threshold ->
  nth_error (range_upto threshold) (Z.to_nat t) = Some t.
Proof.
  intros Ht. unfold range_upto.
  rewrite nth_error_map, nth_error_seq.
  destruct (Nat.ltb_spec (Z.to_nat t) (Z.to_nat (threshold + 1))); [| lia].
  simpl. rewrite Z2Nat.id by lia. reflexivity.
Qed.

Lemma filter_length_le {A : Type} (h1 h2 : A -> bool) (l : list A) :
  (forall x, h1 x = true -> h2 x = true) ->
  (length (filter h1 l) <= length (filter h2 l))%nat.
Proof.
  intros Himp. induction l as [| x l IH]; simpl; [lia |].
  destruct (h1 x) eqn:E1.
  - rewrite (Himp x E1). simpl. lia.
  - destruct (h2 x); simpl; lia.
Qed.

Lemma top1_hit_mono (t1 t2 : Z) (s : list Z * Z) :
  t1 <= t2 -> top1_hit t1 s = true -> top1_hit t2 s = true.
Proof.
  unfold top1_hit. intros Hle. destruct (fst s); [trivial |].
  rewrite !Z.leb_le. lia.
Qed.

Lemma topk_hit_mono (t1 t2 : Z) (s : list Z * Z) :
  t1 <= t2 -> topk_hit t1 s = true -> topk_hit t2 s = true.
Proof.
  unfold topk_hit. intros Hle. rewrite !existsb_exists.
  intros (p & Hin & Hp). exists p. split; [exact Hin |].
  rewrite Z.leb_le in *. lia.
Qed.

Lemma fraction_le (c1 c2 n : nat) :
  (c1 <= c2)%nat -> (fraction c1 n <= fraction c2 n)%Q.
Proof.
  intros Hc. unfold fraction, Qdiv.
  apply Qmult_le_compat_r.
  - rewrite <- Zle_Qle. lia.
  - apply Qinv_le_0_compat. change 0%Q with (inject_Z 0).
    rewrite <- Zle_Qle. lia.
Qed.

Lemma is_value_le (o1 o2 : option Q) (q1 q2 : Q) :
  is_value o1 q1 -> is_value o2 q2 -> (q1 <= q2)%Q -> le_value o1 o2.
Proof.
  destruct o1 as [x |], o2 as [y |]; simpl; try tauto.
  intros -> ->. trivial.
Qed.

(** C3: on a non-empty batch the sweep leaves one (top1, topK) pair for
    every integer threshold from 0 to the configured one, in that order, each
    the pair of hit fractions at that threshold; and along the list both
    accuracies never decrease. *)
Theorem threshold_sweep_monotone (n k : nat) (pred pred_post : list (list Z))
    (targets : list Z) (threshold : Z) :
  (0 < n)%nat -> (0 < k)%nat ->
  has_shape n k pred -> has_shape n k pred_post -> length targets = n ->
  exists r,
    CalculateTopk_and_GetWrongSample pred pred_post targets threshold = Ok r /\
    length (res_topk_list r) = Z.to_nat (threshold + 1) /\
    (forall t, 0 <= t <= threshold ->
       exists a1 ak,
         nth_error (res_topk_list r) (Z.to_nat t) = Some (a1, ak) /\
         is_value a1 (fraction (count_hits (top1_hit t) pred targets) n) /\
         is_value ak (fraction (count_hits (topk_hit t) pred targets) n)) /\
    (forall t1 t2 a1 ak b1 bk,
       0 <= t1 -> t1 < t2 -> t2 <= threshold ->
       nth_error (res_topk_list r) (Z.to_nat t1) = Some (a1, ak) ->
       nth_error (res_topk_list r) (Z.to_nat t2) = Some (b1, bk) ->
       le_value a1 b1 /\ le_value ak bk).
Proof.
  intros Hn Hk Hp Hq Ht.
  destruct (CalculateTopk_ok n k pred pred_post targets threshold Hk Hp Hq Ht)
    as (r & Hr & _ & _ & Hlist).
  destruct Hp as [Hp _].
  assert (Hne : pred <> []) by (intros ->; simpl in Hp; lia).
  assert (Hlen : length pred = length targets) by congruence.
  assert (Hat : forall t, 0 <= t <= threshold ->
            nth_error (res_topk_list r) (Z.to_nat t)
            = Some (acc_pair (bias_rows pred targets) t)).
  { intros t Hrange. rewrite Hlist, nth_error_map, range_upto_nth by exact Hrange.
    reflexivity. }
  assert (Hval : forall t,
            is_value (fst (acc_pair (bias_rows pred targets) t))
              (fraction (count_hits (top1_hit t) pred targets) n) /\
            is_value (snd (acc_pair (bias_rows pred targets) t))
              (fraction (count_hits (topk_hit t) pred targets) n)).
  { intros t. rewrite <- Hp. apply acc_pair_fractions; assumption. }
  exists r. split; [exact Hr |]. split; [| split].
  - rewrite Hlist, length_map. apply range_upto_length.
  - intros t Hrange.
    exists (fst (acc_pair (bias_rows pred targets) t)),
           (snd (acc_pair (bias_rows pred targets) t)).
    rewrite <- surjective_pairing. split; [apply Hat; exact Hrange |].
    apply Hval.
  - intros t1 t2 a1 ak b1 bk H0 H12 H2 E1 E2.
    rewrite Hat in E1 by lia. rewrite Hat in E2 by lia.
    assert (P1 : acc_pair (bias_rows pred targets) t1 = (a1, ak))
      by congruence.
    assert (P2 : acc_pair (bias_rows pred targets) t2 = (b1, bk))
      by congruence.
    destruct (Hval t1) as [V11 V1k]. destruct (Hval t2) as [V21 V2k].
    rewrite P1 in V11, V1k. rewrite P2 in V21, V2k.
    cbn [fst snd] in V11, V1k, V21, V2k.
    split.
    + eapply is_value_le; [exact V11 | exact V21 |].
      apply fraction_le. unfold count_hits. apply filter_length_le.
      intros s. apply top1_hit_mono. lia.
    + eapply is_value_le; [exact V1k | exact V2k |].
      apply fraction_le. unfold count_hits. apply filter_length_le.
      intros s. apply topk_hit_mono. lia.
Qed.

Lemma threshold_sweep_monotone_witness :
  (0 < 2)%nat /\ (0 < 3)%nat /\
  Val.has_shape 2 3 [[10; 190; 50]; [200; 8; 300]] /\
  Val.has_shape 2 3 [[10; 190; 50]; [200; 8; 300]] /\
  length [15; 5] = 2%nat /\
  exists r,
    Val.CalculateTopk_and_GetWrongSample
      [[10; 190; 50]; [200; 8; 300]] [[10; 190; 50]; [200; 8; 300]]
      [15; 5] 4 = Ok r /\
    length (Val.res_topk_list r) = Z.to_nat (4 + 1) /\
    (forall t, 0 <= t <= 4 ->
       exists a1 ak,
         nth_error (Val.res_topk_list r) (Z.to_nat t) = Some (a1, ak) /\
         Val.is_value a1
           (Val.fraction
              (Val.count_hits (Val.top1_hit t)
                 [[10; 190; 50]; [200; 8; 300]] [15; 5]) 2) /\
         Val.is_value ak
           (Val.fraction
              (Val.count_hits (Val.topk_hit t)
                 [[10; 190; 50]; [200; 8; 300]] [15; 5]) 2)) /\
    (forall t1 t2 a1 ak b1 bk,
       0 <= t1 -> t1 < t2 -> t2 <= 4 ->
       nth_error (Val.res_topk_list r) (Z.to_nat t1) = Some (a1, ak) ->
       nth_error (Val.res_topk_list r) (Z.to_nat t2) = Some (b1, bk) ->
       Val.le_value a1 b1 /\ Val.le_value ak bk).
Proof.
  assert (Hs : Val.has_shape 2 3 [[10; 190; 50]; [200; 8; 300]]).
  { split; [reflexivity | repeat constructor]. }
  assert (Hn : (0 < 2)%nat) by lia.
  assert (Hk : (0 < 3)%nat) by lia.
  repeat (split; [assumption || reflexivity |]).
  exact (threshold_sweep_monotone 2 3 _ _ [15; 5] 4 Hn Hk Hs Hs eq_refl).
Defined.

(** The sweep of the witness batch: the second sample's candidate 8 comes
    within reach of the truth 5 at threshold 3. *)
Example sweep_curve :
  exists r,
    CalculateTopk_and_GetWrongSample
      [[10; 190; 50]; [200; 8; 300]] [[10; 190; 50]; [200; 8; 300]]
      [15; 5] 5 = Ok r /\
    res_topk_list r
    = [(Some (0 # 2), Some (0 # 2)); (Some (0 # 2), Some (0 # 2));
       (Some (0 # 2), Some (0 # 2)); (Some (0 # 2), Some (1 # 2));
       (Some (0 # 2), Some (1 # 2)); (Some (1 # 2), Some (2 # 2))]%Q.
Proof. eexists. split; [vm_compute; reflexivity |]. reflexivity. Qed.

End ThresholdSweep.

(** * Properties of the reconstructor *)

Section Truncation.

Import ChooseBox.
Open Scope R_scope.

Lemma Int_part_IZR (z : Z) : Int_part (IZR z) = z.
Proof. symmetry. apply Int_part_spec. lra. Qed.

Lemma Int_part_between (x : R) (z : Z) :
  IZR z <= x < IZR z + 1 -> Int_part x = z.
Proof. intros H. symmetry. apply Int_part_spec. lra. Qed.

Lemma trunc_IZR (z : Z) : trunc (IZR z) = z.
Proof.
  unfold trunc. destruct (Rle_dec 0 (IZR z)) as [H | H].
  - apply Int_part_IZR.
  - rewrite <- opp_IZR, Int_part_IZR. lia.
Qed.

Lemma trunc_between (x : R) (z : Z) :
  0 <= x -> IZR z <= x < IZR z + 1 -> trunc x = z.
Proof.
  intros H0 H. unfold trunc.
  destruct (Rle_dec 0 x); [| contradiction].
  apply Int_part_between. exact H.
Qed.

Lemma radians_45 : radians 45 = PI / 4.
Proof. unfold radians. field. Qed.

(** [cos 45] lies strictly between 0.70625 and 0.7075. *)
Lemma cos_45_bounds : 0.70625 < cos (radians 45) < 0.7075.
Proof.
  rewrite radians_45, cos_PI4.
  pose proof (sqrt_lt_R0 2 ltac:(lra)) as Hpos.
  pose proof (sqrt_sqrt 2 ltac:(lra)) as Hsq.
  assert (Hinv : 1 / sqrt 2 = sqrt 2 / 2) by (field_simplify_eq; lra).
  rewrite Hinv. split; nra.
Qed.

Lemma canvas_side_200 : trunc ((IZR 200 + IZR 200) * cos (radians 45)) = 282%Z.
Proof.
  pose proof cos_45_bounds as [Hlo Hhi].
  apply trunc_between; lra.
Qed.

End Truncation.

Section WedgeReduction.

Import ChooseBox.
Open Scope Z_scope.

Lemma restrict_angle180_mod (angle : Z) :
  0 <= angle < 360 -> restrict_angle180 angle = angle mod 180.
Proof.
  intros H. unfold restrict_angle180.
  destruct (Z.ltb_spec angle 180).
  - rewrite Z.mod_small by lia. reflexivity.
  - apply Z.mod_unique with (q := 1); lia.
Qed.

Lemma restrict_angle90_range (angle : Z) :
  0 <= angle < 360 -> 0 <= restrict_angle90 angle <= 90.
Proof.
  intros H. unfold restrict_angle90, restrict_angle180.
  destruct (Z.ltb_spec angle 180);
    match goal with |- context [?a <=? 90] => destruct (Z.leb_spec a 90) end;
    lia.
Qed.

Lemma restrict_angle45_range (angle : Z) :
  0 <= angle < 360 -> 0 <= restrict_angle45 angle <= 45.
Proof.
  intros H. pose proof (restrict_angle90_range angle H) as H90.
  unfold restrict_angle45.
  destruct (Z.leb_spec (restrict_angle90 angle) 45); lia.
Qed.

(** C6: for an angle in [0,360) the loop computes [a180 = angle mod 180],
    [a90 = a180] when [a180 <= 90] and [a180 - 90] otherwise, [a45 = a90]
    when [a90 <= 45] and [90 - a90] otherwise; 200 reduces to 20, 20, 20 and
    300 to 120, 30, 30. *)
Theorem wedge_reduction (angle : Z) :
  0 <= angle < 360 ->
  let a180 := restrict_angle180 angle in
  let a90 := restrict_angle90 angle in
  let a45 := restrict_angle45 angle in
  a180 = angle mod 180 /\
  a90 = (if a180 <=? 90 then a180 else a180 - 90) /\
  a45 = (if a90 <=? 45 then a90 else 90 - a90) /\
  (restrict_angle180 200, restrict_angle90 200, restrict_angle45 200)
  = (20, 20, 20) /\
  (restrict_angle180 300, restrict_angle90 300, restrict_angle45 300)
  = (120, 30, 30).
Proof.
  intros H. cbv zeta. split; [apply restrict_angle180_mod; exact H |].
  repeat split.
Qed.

Lemma wedge_reduction_witness :
  0 <= 300 < 360 /\
  ChooseBox.restrict_angle180 300 = 300 mod 180 /\
  ChooseBox.restrict_angle90 300
  = (if ChooseBox.restrict_angle180 300 <=? 90
     then ChooseBox.restrict_angle180 300
     else ChooseBox.restrict_angle180 300 - 90) /\
  ChooseBox.restrict_angle45 300
  = (if ChooseBox.restrict_angle90 300 <=? 45
     then ChooseBox.restrict_angle90 300
     else 90 - ChooseBox.restrict_angle90 300) /\
  (ChooseBox.restrict_angle180 200, ChooseBox.restrict_angle90 200,
   ChooseBox.restrict_angle45 200) = (20, 20, 20) /\
  (ChooseBox.restrict_angle180 300, ChooseBox.restrict_angle90 300,
   ChooseBox.restrict_angle45 300) = (120, 30, 30).
Proof.
  assert (H : 0 <= 300 < 360) by lia.
  split; [exact H |].
  exact (wedge_reduction 300 H).
Defined.

End WedgeReduction.

Section Matcher.

Import ChooseBox.
Open Scope R_scope.

Lemma fold_min_le (ds : list R) :
  forall d, fold_left Rmin ds d <= d /\
            (forall x, In x ds -> fold_left Rmin ds d <= x).
Proof.
  induction ds as [| e ds IH]; intros d; simpl.
  - split; [lra | tauto].
  - destruct (IH (Rmin d e)) as [H1 H2].
    pose proof (Rmin_l d e). pose proof (Rmin_r d e).
    split; [lra |].
    intros x [-> | Hin]; [lra | auto].
Qed.

Lemma fold_min_in (ds : list R) :
  forall d, In (fold_left Rmin ds d) (d :: ds).
Proof.
  induction ds as [| e ds IH]; intros d; simpl.
  - left. reflexivity.
  - destruct (IH (Rmin d e)) as [H | H].
    + revert H. unfold Rmin at 1. destruct (Rle_dec d e); intros H.
      * left. exact H.
      * right. left. exact H.
    + right. right. exact H.
Qed.

(** [min] of a non-empty list is a lower bound that the list attains. *)
Lemma list_min_spec (l : list R) :
  l <> [] ->
  exists m, list_min l = Ok m /\ In m l /\ forall x, In x l -> m <= x.
Proof.
  destruct l as [| d ds]; [congruence |]. intros _.
  exists (fold_left Rmin ds d). split; [reflexivity |].
  split; [apply fold_min_in |].
  destruct (fold_min_le ds d) as [H1 H2].
  intros x [<- | Hin]; auto.
Qed.

(** [index] finds the first position of a member. *)
Lemma list_index_spec (v : R) (l : list R) :
  In v l ->
  exists i, list_index v l = Ok i /\ nth_error l i = Some v /\
            forall j x, (j < i)%nat -> nth_error l j = Some x -> x <> v.
Proof.
  induction l as [| d ds IH]; intros Hin; [contradiction |].
  simpl. destruct (Req_dec_T d v) as [-> | Hne].
  - exists O. split; [reflexivity |]. split; [reflexivity |].
    intros j x Hj. lia.
  - destruct Hin as [Heq | Hin]; [contradiction |].
    destruct (IH Hin) as (i & Hi & Hnth & Hfirst).
    exists (S i). rewrite Hi. split; [reflexivity |]. split; [exact Hnth |].
    intros [| j] x Hj Hx; simpl in Hx.
    + injection Hx as <-. exact Hne.
    + apply (Hfirst j x); [lia | exact Hx].
Qed.

(** The matcher proper: among a non-empty list it returns the extents of the
    first line at the least squared distance from the point it is given. *)
Lemma check_neareat_coord_spec (rx ry : R) (img : image)
    (lines : list label) :
  lines <> [] ->
  exists i c,
    nth_error lines i = Some c /\
    first_nearest rx ry img lines i /\
    check_neareat_coord rx ry img lines = Ok (l_w c, l_h c).
Proof.
  intros Hne.
  assert (Hmap : map (sq_dist rx ry img) lines <> []).
  { destruct lines; [congruence | discriminate]. }
  destruct (list_min_spec _ Hmap) as (m & Hmin & Hin & Hlow).
  destruct (list_index_spec m _ Hin) as (i & Hidx & Hnth & Hfirst).
  rewrite nth_error_map in Hnth.
  destruct (nth_error lines i) as [c |] eqn:Hc; [| discriminate].
  simpl in Hnth. injection Hnth as Hm.
  exists i, c. split; [exact Hc |]. split.
  - exists c. split; [exact Hc |]. split.
    + intros c' Hc'. rewrite Hm. apply Hlow. apply in_map. exact Hc'.
    + intros j c' Hj Hc'.
      assert (Hx : nth_error (map (sq_dist rx ry img) lines) j
                   = Some (sq_dist rx ry img c')).
      { rewrite nth_error_map, Hc'. reflexivity. }
      pose proof (Hfirst j _ Hj Hx) as Hdiff.
      assert (Hle : m <= sq_dist rx ry img c').
      { apply Hlow. apply in_map. eapply nth_error_In. exact Hc'. }
      rewrite Hm. lra.
  - unfold check_neareat_coord. rewrite Hmin. cbn [bind].
    rewrite Hidx. cbn [bind]. unfold get_line. rewrite Hc. reflexivity.
Qed.

(** A candidate strictly nearer than a second one wins against it,
    whichever comes first. *)
Lemma check_neareat_coord_pair (rx ry : R) (img : image) (a b : label) :
  sq_dist rx ry img a < sq_dist rx ry img b ->
  check_neareat_coord rx ry img [a; b] = Ok (l_w a, l_h a) /\
  check_neareat_coord rx ry img [b; a] = Ok (l_w a, l_h a).
Proof.
  intros Hlt. unfold check_neareat_coord, list_min.
  cbn [map fold_left bind list_index].
  split.
  - rewrite Rmin_left by lra.
    destruct (Req_dec_T (sq_dist rx ry img a) (sq_dist rx ry img a));
      [reflexivity | congruence].
  - rewrite Rmin_right by lra.
    destruct (Req_dec_T (sq_dist rx ry img b) (sq_dist rx ry img a));
      [lra |].
    destruct (Req_dec_T (sq_dist rx ry img a) (sq_dist rx ry img a));
      [reflexivity | congruence].
Qed.

(** Ties go to the lower index. *)
Lemma check_neareat_coord_tie (rx ry : R) (img : image) (a b : label) :
  sq_dist rx ry img a = sq_dist rx ry img b ->
  check_neareat_coord rx ry img [a; b] = Ok (l_w a, l_h a).
Proof.
  intros Heq. unfold check_neareat_coord, list_min.
  cbn [map fold_left bind list_index].
  rewrite Rmin_left by lra.
  destruct (Req_dec_T (sq_dist rx ry img a) (sq_dist rx ry img a));
    [reflexivity | congruence].
Qed.

End Matcher.

Section EmptyCandidates.

Import ChooseBox.
Open Scope R_scope.

Lemma ambiguous_zone_iff (a90 : Z) :
  in_ambiguous_zone a90 = true <-> 22.5 < IZR a90 < 67.5.
Proof.
  unfold in_ambiguous_zone.
  destruct (Rgt_dec (IZR a90) 22.5), (Rlt_dec (IZR a90) 67.5);
    split; intros H; try discriminate; try reflexivity; lra.
Qed.

Lemma ambiguous_not_degenerate (a90 : Z) :
  in_ambiguous_zone a90 = true ->
  negb (a90 =? 0)%Z && negb (a90 =? 90)%Z = true.
Proof.
  rewrite ambiguous_zone_iff. intros H.
  destruct (Z.eqb_spec a90 0) as [-> | _]; [lra |].
  destruct (Z.eqb_spec a90 90) as [-> | _]; [lra |].
  reflexivity.
Qed.

Lemma extents_from_rotated_empty (x y : R) (img r_img : image) :
  extents_from_rotated x y img r_img [] = Err ValueError.
Proof.
  unfold extents_from_rotated.
  destruct (rotate_point x y (shape1 img) (shape0 img) 45). reflexivity.
Qed.

(** C10: handed no candidate, the matcher raises (the [ValueError] of [min]
    on an empty list); the loop body that called it, in the ambiguous zone,
    raises the same, and so does the loop over the file: nothing is drawn
    in place of the missing match. *)
Theorem empty_candidates_raise (img r_img : image) (line : label)
    (rest : list label) :
  in_ambiguous_zone (restrict_angle90 (l_angle line)) = true ->
  (forall rx ry, check_neareat_coord rx ry r_img [] = Err ValueError) /\
  draw_line img r_img [] line = Err ValueError /\
  draw_file img r_img [] (line :: rest) = Err ValueError.
Proof.
  intros Hamb.
  assert (Hline : draw_line img r_img [] line = Err ValueError).
  { unfold draw_line.
    destruct (swap_axes _ _ _ _) as [[w h] yellow].
    rewrite (ambiguous_not_degenerate _ Hamb), Hamb.
    rewrite extents_from_rotated_empty. reflexivity. }
  split; [reflexivity |]. split; [exact Hline |].
  unfold draw_file. cbn [mapM]. rewrite Hline. reflexivity.
Qed.

Lemma centre30_ambiguous :
  in_ambiguous_zone (restrict_angle90 (l_angle Inputs.centre30)) = true.
Proof.
  change (restrict_angle90 (l_angle Inputs.centre30)) with 30%Z.
  apply ambiguous_zone_iff. lra.
Defined.

Lemma empty_candidates_raise_witness :
  ChooseBox.in_ambiguous_zone
    (ChooseBox.restrict_angle90 (ChooseBox.l_angle Inputs.centre30)) = true /\
  (forall rx ry,
     ChooseBox.check_neareat_coord rx ry Inputs.r_img282 [] = Err ValueError) /\
  ChooseBox.draw_line Inputs.img200 Inputs.r_img282 [] Inputs.centre30
  = Err ValueError /\
  ChooseBox.draw_file Inputs.img200 Inputs.r_img282 []
    [Inputs.centre30; Inputs.centre10] = Err ValueError.
Proof.
  split; [exact centre30_ambiguous |].
  exact (empty_candidates_raise Inputs.img200 Inputs.r_img282 Inputs.centre30
           [Inputs.centre10] centre30_ambiguous).
Defined.

End EmptyCandidates.

Section Correspondence.

Import ChooseBox Inputs.
Open Scope R_scope.

Lemma rotated45_size_200 : rotated45_size img200 = (282%Z, 282%Z).
Proof.
  unfold rotated45_size. cbn [shape0 shape1 img200].
  rewrite canvas_side_200. reflexivity.
Qed.

(** The centre of the 200 x 200 image projects onto the centre of the
    282 x 282 one. *)
Lemma rotate_point_centre :
  rotate_point (0.5 * IZR 200) (0.5 * IZR 200) 200 200 45 = (141%Z, 141%Z).
Proof.
  unfold rotate_point. rewrite canvas_side_200.
  f_equal.
  - rewrite <- (trunc_IZR 141). f_equal. lra.
  - rewrite <- (trunc_IZR 141). f_equal. lra.
Qed.

Lemma sq_dist_raw_a : sq_dist (0.5 * IZR 200) (0.5 * IZR 200) r_img282 cand_a
                      < sq_dist (0.5 * IZR 200) (0.5 * IZR 200) r_img282 cand_b.
Proof. unfold sq_dist. cbn. lra. Qed.

Lemma sq_dist_projected_b : sq_dist (IZR 141) (IZR 141) r_img282 cand_b
                            < sq_dist (IZR 141) (IZR 141) r_img282 cand_a.
Proof. unfold sq_dist. cbn. lra. Qed.

(** C4, the defect: the loop projects the query with [rotate_point] and
    then hands the matcher the unprojected [(x, y)].  At the centre of a
    200 x 200 image, with one candidate at the projected pixel (141, 141)
    and one near the raw pixel (100, 100), the matcher asked about the
    projected point answers the first, the loop takes the second. *)
Theorem matcher_gets_unprojected_point :
  rotate_point (0.5 * IZR 200) (0.5 * IZR 200) 200 200 45 = (141%Z, 141%Z) /\
  match_projected (0.5 * IZR 200) (0.5 * IZR 200) img200 r_img282
    [cand_a; cand_b] = Ok (l_w cand_b, l_h cand_b) /\
  check_neareat_coord (0.5 * IZR 200) (0.5 * IZR 200) r_img282
    [cand_a; cand_b] = Ok (l_w cand_a, l_h cand_a) /\
  extents_from_rotated (0.5 * IZR 200) (0.5 * IZR 200) img200 r_img282
    [cand_a; cand_b] = Ok (l_w cand_a * IZR 200, l_h cand_a * IZR 200) /\
  (exists d, draw_line img200 r_img282 [cand_a; cand_b] centre30 = Ok d /\
             red_extents d = Some (l_w cand_a * IZR 200, l_h cand_a * IZR 200)) /\
  l_w cand_a * IZR 200 = 10 /\ l_h cand_a * IZR 200 = 20 /\
  l_w cand_b * IZR 200 = 18 /\ l_h cand_b * IZR 200 = 38.
Proof.
  pose proof (check_neareat_coord_pair _ _ _ _ _ sq_dist_raw_a) as [Hraw _].
  pose proof (check_neareat_coord_pair _ _ _ _ _ sq_dist_projected_b)
    as [_ Hproj].
  assert (Hext : extents_from_rotated (0.5 * IZR 200) (0.5 * IZR 200)
                   img200 r_img282 [cand_a; cand_b]
                 = Ok (l_w cand_a * IZR 200, l_h cand_a * IZR 200)).
  { unfold extents_from_rotated. cbn [shape0 shape1 img200].
    rewrite rotate_point_centre, Hraw. cbn [bind].
    destruct (Rgt_dec (l_w cand_a * IZR 200) (l_h cand_a * IZR 200)) as [H | H];
      [cbn in H; lra | reflexivity]. }
  split; [exact rotate_point_centre |].
  split.
  { unfold match_projected. cbn [shape0 shape1 img200].
    rewrite rotate_point_centre. exact Hproj. }
  split; [exact Hraw |].
  split; [exact Hext |].
  split.
  { unfold draw_line. cbn [l_angle l_x l_y l_w l_h centre30 shape0 shape1 img200].
    destruct (swap_axes _ _ _ _) as [[w h] yellow].
    change (restrict_angle90 30) with 30%Z.
    change (restrict_angle45 30) with 30%Z.
    cbn [Z.eqb negb andb].
    assert (Hamb : in_ambiguous_zone 30 = true)
      by (apply ambiguous_zone_iff; lra).
    rewrite Hamb, Hext. cbn [bind].
    eexists. split; reflexivity. }
  cbn. repeat split; lra.
Qed.

End Correspondence.

Section Reconstruction.

Import ChooseBox.
Open Scope R_scope.

(** The swap leaves the smaller extent first and draws the detected box. *)
Lemma swap_axes_spec (x y w h : R) :
  swap_axes x y w h
  = (Rmin w h, Rmax w h,
     (trunc (x - w / 2), trunc (x + w / 2),
      trunc (y - h / 2), trunc (y + h / 2))).
Proof.
  unfold swap_axes. destruct (Rgt_dec w h) as [Hgt | Hle].
  - rewrite Rmin_right, Rmax_left by lra. reflexivity.
  - rewrite Rmin_left, Rmax_right by lra. reflexivity.
Qed.

(** The ambiguous branch: the extents of the first nearest line of the
    rotated frame, times the size of the primary image, smaller first. *)
Lemma extents_from_rotated_spec (x y : R) (img r_img : image)
    (rlines : list label) :
  rlines <> [] ->
  exists i c,
    nth_error rlines i = Some c /\
    first_nearest x y r_img rlines i /\
    extents_from_rotated x y img r_img rlines
    = Ok (Rmin (l_w c * IZR (shape1 img)) (l_h c * IZR (shape0 img)),
          Rmax (l_w c * IZR (shape1 img)) (l_h c * IZR (shape0 img))).
Proof.
  intros Hne.
  destruct (check_neareat_coord_spec x y r_img rlines Hne)
    as (i & c & Hc & Hnear & Hres).
  exists i, c. split; [exact Hc |]. split; [exact Hnear |].
  unfold extents_from_rotated.
  destruct (rotate_point x y (shape1 img) (shape0 img) 45) as [rx ry].
  rewrite Hres. cbn [bind].
  destruct (Rgt_dec _ _) as [Hgt | Hle].
  - rewrite Rmin_right, Rmax_left by lra. reflexivity.
  - rewrite Rmin_left, Rmax_right by lra. reflexivity.
Qed.

Lemma not_ambiguous_zone (a90 : Z) :
  ~ (22.5 < IZR a90 < 67.5) -> in_ambiguous_zone a90 = false.
Proof.
  intros H. destruct (in_ambiguous_zone a90) eqn:E; [| reflexivity].
  apply ambiguous_zone_iff in E. contradiction.
Qed.

Lemma degenerate_test (a90 : Z) :
  negb (a90 =? 0)%Z && negb (a90 =? 90)%Z = true
  <-> (a90 <> 0 /\ a90 <> 90)%Z.
Proof.
  destruct (Z.eqb_spec a90 0), (Z.eqb_spec a90 90); simpl;
    split; intros H; try discriminate; try reflexivity; try tauto; lia.
Qed.



(** The trigonometric branch keeps the order of the extents: with a unit
    vector [(c, s)] in the first quadrant, [c] positive. *)
Lemma extents_by_trigonometry_ordered (w h c s : R) :
  w <= h -> 0 <= h -> 0 < c -> 0 <= s -> c * c + s * s = 1 ->
  fst (extents_by_trigonometry w h c s) <= snd (extents_by_trigonometry w h c s).
Proof.
  intros Hwh Hh Hc Hs Hunit. unfold extents_by_trigonometry. cbn [fst snd].
  apply Rmult_le_reg_r with (r := c); [exact Hc |].
  unfold Rdiv. rewrite Rmult_assoc, Rinv_l, Rmult_1_r by lra.
  assert (Hgap : (h - (w * c - h * s) * s) - (w * c - h * s) * c
                 = (h - w) * (c * c + c * s) + 2 * h * (s * s)).
  { transitivity (h * (c * c + s * s) + h * (s * s) + h * (s * c)
                  - w * (c * s) - w * (c * c)); [rewrite Hunit |]; ring. }
  assert (0 <= (h - w) * (c * c + c * s)) by (apply Rmult_le_pos; nra).
  assert (0 <= 2 * h * (s * s)) by (apply Rmult_le_pos; nra).
  lra.
Qed.

(** On the folded angle the cosine is at least that of 45 degrees, and the
    sine is not negative. *)
Lemma wedge_trig (a45 : Z) :
  (0 <= a45 <= 45)%Z ->
  cos (radians 45) <= cos (radians (IZR a45)) /\
  0 < cos (radians 45) /\
  0 <= sin (radians (IZR a45)).
Proof.
  intros [Hlo Hhi]. apply IZR_le in Hlo, Hhi.
  pose proof PI_RGT_0 as Hpi.
  assert (H0 : 0 <= radians (IZR a45)).
  { unfold radians. apply Rmult_le_pos; lra. }
  assert (H1 : radians (IZR a45) <= radians 45).
  { unfold radians. apply Rmult_le_compat_r; lra. }
  assert (H2 : radians 45 = PI / 4) by apply radians_45.
  split; [| split].
  - apply cos_decr_1; lra.
  - pose proof cos_45_bounds. lra.
  - apply sin_ge_0; lra.
Qed.

Lemma Rmin_le_Rmax (a b : R) : Rmin a b <= Rmax a b.
Proof.
  pose proof (Rmin_l a b). pose proof (Rmax_l a b). lra.
Qed.

(** C7: for a detection with non-negative extents and an angle in [0,360)
    (and, in the ambiguous zone, at least one line in the rotated frame) the
    loop body returns, with [w <= h] after the swap and [rw <= rh] for the
    extents of the oriented box, whichever branch computed them; the three
    branches keep the order each on its own. *)
Theorem width_le_height (img r_img : image) (rlines : list label)
    (line : label) :
  0 <= l_w line -> 0 <= l_h line ->
  (0 <= shape0 img)%Z -> (0 <= shape1 img)%Z ->
  (0 <= l_angle line < 360)%Z ->
  (in_ambiguous_zone (restrict_angle90 (l_angle line)) = true ->
   rlines <> []) ->
  (exists d, draw_line img r_img rlines line = Ok d /\
     norm_w d <= norm_h d /\
     (forall rw rh, red_extents d = Some (rw, rh) -> rw <= rh)) /\
  (forall x y w h w' h' box,
     swap_axes x y w h = (w', h', box) -> w' <= h') /\
  (forall x y rw rh,
     extents_from_rotated x y img r_img rlines = Ok (rw, rh) -> rw <= rh) /\
  (forall w h a45 rw rh,
     w <= h -> 0 <= h -> (0 <= a45 <= 45)%Z ->
     extents_by_trigonometry w h (cos (radians (IZR a45)))
       (sin (radians (IZR a45))) = (rw, rh) ->
     rw <= rh).
Proof.
  intros Hw Hh H0 H1 Hangle Hcands.
  assert (Hswap : forall x y w h w' h' box,
            swap_axes x y w h = (w', h', box) -> w' <= h').
  { intros x y w h w' h' box E. rewrite swap_axes_spec in E.
    injection E as <- <- _. apply Rmin_le_Rmax. }
  assert (Hrot : forall x y rw rh,
            extents_from_rotated x y img r_img rlines = Ok (rw, rh) ->
            rw <= rh).
  { intros x y rw rh E. destruct rlines as [| l0 ls] eqn:El.
    - rewrite extents_from_rotated_empty in E. discriminate.
    - destruct (extents_from_rotated_spec x y img r_img (l0 :: ls))
        as (i & c & _ & _ & Hres); [discriminate |].
      rewrite Hres in E. injection E as <- <-. apply Rmin_le_Rmax. }
  assert (Htrig : forall w h a45 rw rh,
            w <= h -> 0 <= h -> (0 <= a45 <= 45)%Z ->
            extents_by_trigonometry w h (cos (radians (IZR a45)))
              (sin (radians (IZR a45))) = (rw, rh) ->
            rw <= rh).
  { intros w h a45 rw rh Hwh Hh0 Ha E.
    destruct (wedge_trig a45 Ha) as (Hc & Hc45 & Hs).
    pose proof (extents_by_trigonometry_ordered w h
                  (cos (radians (IZR a45))) (sin (radians (IZR a45)))
                  Hwh Hh0 ltac:(lra) Hs) as Hord.
    rewrite E in Hord. cbn [fst snd] in Hord. apply Hord.
    pose proof (sin2_cos2 (radians (IZR a45))) as Hunit.
    unfold Rsqr in Hunit. lra. }
  split; [| split; [exact Hswap | split; [exact Hrot | exact Htrig]]].
  apply IZR_le in H0, H1.
  set (w0 := l_w line * IZR (shape1 img)).
  set (h0 := l_h line * IZR (shape0 img)).
  assert (Hw0 : 0 <= w0) by (apply Rmult_le_pos; assumption).
  assert (Hh0 : 0 <= h0) by (apply Rmult_le_pos; assumption).
  assert (Hmax : 0 <= Rmax w0 h0).
  { pose proof (Rmax_l w0 h0). lra. }
  unfold draw_line. fold w0 h0. rewrite swap_axes_spec.
  destruct (negb (restrict_angle90 (l_angle line) =? 0)%Z
            && negb (restrict_angle90 (l_angle line) =? 90)%Z).
  - destruct (in_ambiguous_zone (restrict_angle90 (l_angle line))) eqn:Ezone.
    + destruct (extents_from_rotated_spec
                  (l_x line * IZR (shape1 img)) (l_y line * IZR (shape0 img))
                  img r_img rlines (Hcands eq_refl))
        as (i & c & _ & _ & Hres).
      rewrite Hres. cbn [bind]. eexists. split; [reflexivity |].
      cbn [norm_w norm_h red_extents].
      split; [apply Rmin_le_Rmax |].
      intros rw rh E. injection E as <- <-. apply Rmin_le_Rmax.
    + cbn [bind].
      destruct (extents_by_trigonometry _ _ _ _) as [rw rh] eqn:E.
      eexists. split; [reflexivity |].
      cbn [norm_w norm_h red_extents].
      split; [apply Rmin_le_Rmax |].
      intros rw' rh' E'. injection E' as <- <-.
      apply (Htrig _ _ _ rw rh (Rmin_le_Rmax w0 h0) Hmax
               (restrict_angle45_range _ Hangle) E).
  - eexists. split; [reflexivity |].
    cbn [norm_w norm_h red_extents].
    split; [apply Rmin_le_Rmax |]. intros rw rh E. discriminate.
Qed.

Lemma width_le_height_witness :
  0 <= ChooseBox.l_w Inputs.centre30 /\ 0 <= ChooseBox.l_h Inputs.centre30 /\
  (0 <= ChooseBox.shape0 Inputs.img200)%Z /\
  (0 <= ChooseBox.shape1 Inputs.img200)%Z /\
  (0 <= ChooseBox.l_angle Inputs.centre30 < 360)%Z /\
  exists d,
    ChooseBox.draw_line Inputs.img200 Inputs.r_img282
      [Inputs.cand_a; Inputs.cand_b] Inputs.centre30 = Ok d /\
    ChooseBox.norm_w d <= ChooseBox.norm_h d /\
    (forall rw rh, ChooseBox.red_extents d = Some (rw, rh) -> rw <= rh).
Proof.
  assert (Hw : 0 <= l_w Inputs.centre30) by (cbn; lra).
  assert (Hh : 0 <= l_h Inputs.centre30) by (cbn; lra).
  assert (H0 : (0 <= shape0 Inputs.img200)%Z) by (cbn; lia).
  assert (H1 : (0 <= shape1 Inputs.img200)%Z) by (cbn; lia).
  assert (Ha : (0 <= l_angle Inputs.centre30 < 360)%Z) by (cbn; lia).
  assert (Hc : in_ambiguous_zone (restrict_angle90 (l_angle Inputs.centre30))
               = true -> [Inputs.cand_a; Inputs.cand_b] <> [])
    by (intros _; discriminate).
  repeat (split; [assumption |]).
  exact (proj1 (width_le_height Inputs.img200 Inputs.r_img282
                  [Inputs.cand_a; Inputs.cand_b] Inputs.centre30
                  Hw Hh H0 H1 Ha Hc)).
Defined.

(** Outside the ambiguous zone the loop body raises nothing, whatever the
    angle: the quotient by [cos] is taken as it comes. *)
Lemma draw_line_outside_zone (img r_img : image) (rlines : list label)
    (line : label) :
  in_ambiguous_zone (restrict_angle90 (l_angle line)) = false ->
  exists d,
    draw_line img r_img rlines line = Ok d /\
    ((restrict_angle90 (l_angle line) <> 0
      /\ restrict_angle90 (l_angle line) <> 90)%Z ->
     red_extents d
     = Some (extents_by_trigonometry
               (norm_w d) (norm_h d)
               (cos (radians (IZR (restrict_angle45 (l_angle line)))))
               (sin (radians (IZR (restrict_angle45 (l_angle line))))))).
Proof.
  intros Hzone. unfold draw_line. rewrite swap_axes_spec, Hzone.
  destruct (negb (restrict_angle90 (l_angle line) =? 0)%Z
            && negb (restrict_angle90 (l_angle line) =? 90)%Z) eqn:Etest.
  - cbn [bind extents_by_trigonometry]. eexists. split; [reflexivity |].
    intros _. reflexivity.
  - eexists. split; [reflexivity |].
    intros Hnd. apply degenerate_test in Hnd. congruence.
Qed.





End Reconstruction.

Section Projection.

Import ChooseBox.
Open Scope R_scope.

(** C8, the counterexample: for a 200 x 200 frame rotated by 45 degrees
    [(W+H) cos 45] is about 282.84; the canvas side the code computes is
    282, its rounding is 283. *)
Lemma canvas_side_is_not_rounded :
  rotated45_size Inputs.img200 = (282%Z, 282%Z) /\
  round_nearest ((IZR 200 + IZR 200) * cos (radians 45)) = 283%Z /\
  fst (rotated45_size Inputs.img200)
  <> round_nearest ((IZR (shape1 Inputs.img200) + IZR (shape0 Inputs.img200))
                    * cos (radians 45)).
Proof.
  pose proof cos_45_bounds as [Hlo Hhi].
  assert (Hround : round_nearest ((IZR 200 + IZR 200) * cos (radians 45))
                   = 283%Z).
  { unfold round_nearest.
    rewrite (Int_part_between _ 282) by lra.
    destruct (Rlt_dec _ _) as [H | _]; [lra |].
    destruct (Rgt_dec _ _) as [_ | H]; [reflexivity | lra]. }
  split; [exact rotated45_size_200 |]. split; [exact Hround |].
  rewrite rotated45_size_200. cbn [fst shape0 shape1 Inputs.img200].
  rewrite Hround. discriminate.
Qed.

(** C8, as the code has it: the side of the rotated canvas is
    [(W+H) cos theta] truncated toward zero, the same in the image rotation
    (at 45 degrees) and in the projection; the projection computes
    [x' = (x - W/2) cos theta + (y - H/2) sin theta + W/2 + (R-W)/2] and
    [y' = -(x - W/2) sin theta + (y - H/2) cos theta + H/2 + (R-H)/2] with
    that side [R], and returns both truncated toward zero; [x'] and [y'] are
    the rotated offsets from the centre, moved to the centre [R/2] of the
    rotated canvas. *)
Theorem projection_formula (x y : R) (w h : Z) (theta : R) :
  let side := trunc ((IZR w + IZR h) * cos (radians theta)) in
  rotate_point x y w h theta
  = (trunc (projected_x x y w h theta side),
     trunc (projected_y x y w h theta side)) /\
  projected_x x y w h theta side
  = (x - IZR w / 2) * cos (radians theta)
    + (y - IZR h / 2) * sin (radians theta) + IZR side / 2 /\
  projected_y x y w h theta side
  = - (x - IZR w / 2) * sin (radians theta)
    + (y - IZR h / 2) * cos (radians theta) + IZR side / 2 /\
  rotated45_size {| shape0 := h; shape1 := w |}
  = (trunc ((IZR w + IZR h) * cos (radians 45)),
     trunc ((IZR w + IZR h) * cos (radians 45))) /\
  (forall z : Z, trunc (IZR z) = z) /\
  (forall r : R, 0 <= r -> IZR (trunc r) <= r < IZR (trunc r) + 1) /\
  (forall r : R, r <= 0 -> r <= IZR (trunc r) < r + 1).
Proof.
  cbv zeta. split; [reflexivity |].
  split; [unfold projected_x; field |].
  split; [unfold projected_y; field |].
  split; [reflexivity |].
  split; [exact trunc_IZR |].
  split.
  - intros r Hr. unfold trunc. destruct (Rle_dec 0 r); [| contradiction].
    destruct (base_Int_part r) as [H1 H2]. lra.
  - intros r Hr. unfold trunc. destruct (Rle_dec 0 r) as [H0 | H0].
    + assert (Hz : r = IZR 0) by lra. rewrite Hz, Int_part_IZR. lra.
    + rewrite opp_IZR. destruct (base_Int_part (- r)) as [H1 H2]. lra.
Qed.

(** A point whose projection is not whole: the result is cut, not the
    exact [x']. *)
Example projection_is_truncated :
  rotate_point (0.25 * IZR 200) (0.5 * IZR 200) 200 200 45 = (105%Z, 176%Z) /\
  projected_x (0.25 * IZR 200) (0.5 * IZR 200) 200 200 45 282
  = IZR 141 - 50 * cos (radians 45).
Proof.
  pose proof cos_45_bounds as [Hlo Hhi].
  pose proof (sin_cos_PI4) as Hsc. rewrite <- radians_45 in Hsc.
  split; [| unfold projected_x; lra].
  unfold rotate_point. rewrite canvas_side_200. f_equal.
  - apply trunc_between; lra.
  - apply trunc_between; rewrite Hsc; lra.
Qed.

End Projection.

(** * Further properties of the evaluator *)

Section EvaluatorShape.

Import Val.
Open Scope Z_scope.

(** The loop on any batch it accepts: the bias tensor and the state. *)
Lemma sample_loop_general (threshold : Z) (targets : list Z) :
  forall pred pred_post st,
    (length targets <= length pred)%nat ->
    (length targets <= length pred_post)%nat ->
    nonempty_rows (firstn (length targets) pred) ->
    sample_loop threshold pred pred_post targets st
    = Ok (final_bias pred targets,
          fold_left (step_sample threshold) (combine pred targets) st).
Proof.
  unfold final_bias.
  induction targets as [| target targets IH]; intros pred pred_post st Hp Hq Hne.
  - unfold bias_rows. rewrite combine_nil. destruct pred; reflexivity.
  - destruct pred as [| row pred]; [simpl in Hp; lia |].
    destruct pred_post as [| row_post pred_post]; [simpl in Hq; lia |].
    simpl in Hp, Hq, Hne. inversion Hne as [| ? ? Hrow Hrest]; subst.
    destruct row as [| p0 row]; [congruence |].
    cbn [sample_loop]. rewrite wrap180_abs_sub. cbn [map].
    rewrite IH by (try lia; exact Hrest). cbn [bind].
    reflexivity.
Qed.





Lemma final_bias_nonempty (pred : list (list Z)) :
  forall targets,
    nonempty_rows (final_bias pred targets) <-> nonempty_rows pred.
Proof.
  unfold final_bias, bias_rows, nonempty_rows.
  induction pred as [| row pred IH]; intros targets.
  - simpl. rewrite skipn_nil. split; constructor.
  - destruct targets as [| target targets].
    + simpl. tauto.
    + cbn [combine map fst snd length skipn app].
      split; intros H; inversion H as [| ? ? Hrow Hrest]; subst;
        constructor; try (apply (IH targets); exact Hrest);
        destruct row; simpl in *; congruence.
Qed.

Lemma nonempty_firstn (n : nat) (m : list (list Z)) :
  nonempty_rows m -> nonempty_rows (firstn n m).
Proof.
  unfold nonempty_rows. revert n.
  induction m as [| row m IH]; intros [| n] H; simpl; try constructor.
  - inversion H; assumption.
  - inversion H; auto.
Qed.

Lemma last_cons_default {A : Type} (l : list A) :
  forall a d : A, last (a :: l) d = last l a.
Proof.
  induction l as [| b l IH]; intros a d; [reflexivity |].
  change (last (a :: b :: l) d) with (last (b :: l) d).
  rewrite !IH. reflexivity.
Qed.

(** The sweep rebinds [correct] and [acc] at every turn: it ends on those of
    its last threshold. *)
Lemma sweep_spec (B : list (list Z)) (ts : list Z) :
  nonempty_rows B ->
  forall correct acc topk_list,
  exists acc',
    sweep B ts correct acc topk_list
    = Ok (last (map (where_le B) ts) correct, acc',
          topk_list ++ map (acc_pair B) ts).
Proof.
  intros Hne.
  induction ts as [| i ts IH]; intros correct acc topk_list.
  - simpl. rewrite app_nil_r. eauto.
  - cbn [sweep]. unfold accuracy.
    rewrite (column0_ok i B Hne), (max1_ok i B Hne). cbn [bind].
    rewrite map_fst_combine, map_snd_combine
      by (rewrite !length_map; reflexivity).
    destruct (IH (where_le B i)
                (combine (map (fun row => ind (head_le i row)) B)
                         (map (fun row => ind (any_le i row)) B))
                (topk_list ++ [acc_pair B i])) as (acc' & Hsw).
    unfold acc_pair at 1 in Hsw. rewrite Hsw. exists acc'.
    rewrite <- app_assoc. cbn [map app].
    rewrite last_cons_default. reflexivity.
Qed.

Lemma range_upto_last {A : Type} (f : Z -> A) (threshold : Z) (d : A) :
  0 <= threshold -> last (map f (range_upto threshold)) d = f threshold.
Proof.
  intros H. unfold range_upto.
  replace (Z.to_nat (threshold + 1)) with (S (Z.to_nat threshold)) by lia.
  rewrite seq_S, !map_app. cbn [map]. rewrite last_last.
  rewrite Nat.add_0_l, Z2Nat.id by lia. reflexivity.
Qed.

Lemma range_upto_negative (threshold : Z) :
  threshold < 0 -> range_upto threshold = [].
Proof.
  intros H. unfold range_upto.
  replace (Z.to_nat (threshold + 1)) with 0%nat by lia. reflexivity.
Qed.

(** Every field of the result on a batch the function accepts. *)
Lemma CalculateTopk_fields (pred pred_post : list (list Z))
    (targets : list Z) (threshold : Z) :
  ok_shape pred pred_post targets ->
  exists r,
    CalculateTopk_and_GetWrongSample pred pred_post targets threshold = Ok r /\
    res_bias_topk r = final_bias pred targets /\
    (top1 r, top5 r) = acc_pair (final_bias pred targets) threshold /\
    res_topk_list r
    = map (acc_pair (final_bias pred targets)) (range_upto threshold) /\
    res_correct r = where_le (final_bias pred targets) threshold /\
    res_wrong_preds r
    = wrong_preds (fold_left (step_sample threshold) (combine pred targets)
                     init_state) /\
    res_bias_ori r
    = bias_ori (fold_left (step_sample threshold) (combine pred targets)
                  init_state) /\
    res_buckets r
    = (let st := fold_left (step_sample threshold) (combine pred targets)
                   init_state in
       (correct_bias_count st, large_bias_count st, samll_bias_count st)).
Proof.
  intros (Hp & Hq & Hne).
  pose proof (proj2 (final_bias_nonempty pred targets) Hne) as HB.
  unfold CalculateTopk_and_GetWrongSample.
  rewrite (sample_loop_general threshold targets pred pred_post init_state
             Hp Hq (nonempty_firstn _ _ Hne)).
  cbn [bind]. unfold accuracy.
  rewrite (column0_ok threshold _ HB), (max1_ok threshold _ HB). cbn [bind].
  rewrite map_fst_combine, map_snd_combine
    by (rewrite !length_map; reflexivity).
  destruct (sweep_spec _ (range_upto threshold) HB
              (where_le (final_bias pred targets) threshold)
              (combine
                 (map (fun row => ind (head_le threshold row))
                    (final_bias pred targets))
                 (map (fun row => ind (any_le threshold row))
                    (final_bias pred targets))) []) as (acc' & Hsw).
  rewrite Hsw. cbn [bind app].
  eexists. split; [reflexivity |]. cbn.
  repeat split.
  destruct (Z_lt_le_dec threshold 0) as [Hneg | Hpos].
  - rewrite range_upto_negative by exact Hneg. reflexivity.
  - apply range_upto_last. exact Hpos.
Qed.

End EvaluatorShape.

Section EvaluatorResults.

Import Val.
Open Scope Z_scope.




Lemma record_sample_wrong (t p target b : Z) (st : loop_state) :
  wrong_preds (record_sample t p target b st)
  = if b >? t then wrong_preds st ++ [(p, target)] else wrong_preds st.
Proof.
  unfold record_sample.
  destruct (b >=? 170); [| destruct (b <=? 5)]; reflexivity.
Qed.

Lemma record_sample_bias (t p target b : Z) (st : loop_state) :
  bias_ori (record_sample t p target b st) = bias_ori st ++ [b].
Proof.
  unfold record_sample.
  destruct (b >=? 170); [| destruct (b <=? 5)]; reflexivity.
Qed.

Lemma fold_wrong_preds (t : Z) (samples : list (list Z * Z)) :
  forall st,
    wrong_preds (fold_left (step_sample t) samples st)
    = wrong_preds st
      ++ map (fun s => (top1_pred s, snd s)) (filter (is_wrong t) samples).
Proof.
  induction samples as [| s samples IH]; intros st.
  - simpl. rewrite app_nil_r. reflexivity.
  - cbn [fold_left filter]. rewrite IH.
    unfold step_sample, is_wrong. rewrite record_sample_wrong.
    destruct (top1_bias s >? t); [| reflexivity].
    cbn [map]. rewrite <- app_assoc. reflexivity.
Qed.

Lemma fold_bias_ori (t : Z) (samples : list (list Z * Z)) :
  forall st,
    bias_ori (fold_left (step_sample t) samples st)
    = bias_ori st ++ map top1_bias samples.
Proof.
  induction samples as [| s samples IH]; intros st.
  - simpl. rewrite app_nil_r. reflexivity.
  - cbn [fold_left map]. rewrite IH.
    unfold step_sample. rewrite record_sample_bias, <- app_assoc.
    reflexivity.
Qed.

Lemma fold_buckets (t : Z) (samples : list (list Z * Z)) :
  forall st,
    let st' := fold_left (step_sample t) samples st in
    large_bias_count st'
    = Nat.add (large_bias_count st)
        (length (filter (fun b => b >=? 170) (map top1_bias samples))) /\
    samll_bias_count st'
    = Nat.add (samll_bias_count st)
        (length (filter (fun b => b <=? 5) (map top1_bias samples))) /\
    correct_bias_count st'
    = Nat.add (correct_bias_count st)
        (length (filter (fun b => (5 <? b) && (b <? 170))
                   (map top1_bias samples))).
Proof.
  induction samples as [| s samples IH]; intros st; cbn zeta.
  - simpl. lia.
  - cbn [fold_left map filter]. specialize (IH (step_sample t st s)).
    cbn zeta in IH. destruct IH as (IH1 & IH2 & IH3).
    rewrite IH1, IH2, IH3. unfold step_sample, record_sample.
    destruct (Z.geb_spec (top1_bias s) 170);
      destruct (Z.leb_spec (top1_bias s) 5);
      destruct (Z.ltb_spec 5 (top1_bias s));
      destruct (Z.ltb_spec (top1_bias s) 170);
      cbn [large_bias_count samll_bias_count correct_bias_count andb length];
      lia.
Qed.

Lemma combine_fst_nonempty (pred : list (list Z)) :
  forall targets,
    nonempty_rows pred ->
    Forall (fun s : list Z * Z => fst s <> []) (combine pred targets).
Proof.
  induction pred as [| row pred IH]; intros targets Hne; simpl.
  - constructor.
  - destruct targets; [constructor |].
    inversion Hne; subst. constructor; auto.
Qed.

Lemma wrong_or_hit (t : Z) (samples : list (list Z * Z)) :
  Forall (fun s => fst s <> []) samples ->
  (length (filter (is_wrong t) samples)
   + length (filter (top1_hit t) samples) = length samples)%nat.
Proof.
  induction 1 as [| s samples Hs _ IH]; simpl; [reflexivity |].
  unfold is_wrong at 1, top1_hit at 1, top1_bias, top1_pred.
  destruct (fst s) as [| p0 row]; [congruence |]. cbn [hd].
  rewrite bias_of_min.
  destruct (Z.gtb_spec (circular_distance p0 (snd s)) t);
    destruct (Z.leb_spec (circular_distance p0 (snd s)) t);
    simpl; lia.
Qed.

(** X2: [wrong_preds] lists, in the order of the batch, the pairs
    (rank-0 prediction, truth) of the samples whose rank-0 bias exceeds the
    threshold; together with the top-1 hits they make up the batch. *)
Theorem wrong_preds_are_the_misses (pred pred_post : list (list Z))
    (targets : list Z) (threshold : Z) :
  ok_shape pred pred_post targets ->
  exists r,
    CalculateTopk_and_GetWrongSample pred pred_post targets threshold = Ok r /\
    res_wrong_preds r
    = map (fun s => (top1_pred s, snd s))
        (filter (is_wrong threshold) (combine pred targets)) /\
    (length (res_wrong_preds r)
     + count_hits (top1_hit threshold) pred targets = length targets)%nat.
Proof.
  intros Hok.
  destruct (CalculateTopk_fields pred pred_post targets threshold Hok)
    as (r & Hr & _ & _ & _ & _ & Hw & _).
  destruct Hok as (Hp & _ & Hne).
  rewrite fold_wrong_preds in Hw. cbn [wrong_preds init_state app] in Hw.
  exists r. split; [exact Hr |]. split; [exact Hw |].
  rewrite Hw, length_map. unfold count_hits.
  rewrite (wrong_or_hit threshold _ (combine_fst_nonempty pred targets Hne)).
  rewrite length_combine. lia.
Qed.

Lemma ok_shape_example :
  Val.ok_shape [[10; 190; 50]; [200; 8; 300]] [[10; 190; 50]; [200; 8; 300]]
    [15; 5].
Proof.
  unfold Val.ok_shape, Val.nonempty_rows. cbn [length].
  split; [lia | split; [lia |]].
  repeat constructor; discriminate.
Defined.

Lemma wrong_preds_are_the_misses_witness :
  Val.ok_shape [[10; 190; 50]; [200; 8; 300]] [[10; 190; 50]; [200; 8; 300]]
    [15; 5] /\
  exists r,
    Val.CalculateTopk_and_GetWrongSample
      [[10; 190; 50]; [200; 8; 300]] [[10; 190; 50]; [200; 8; 300]]
      [15; 5] 10 = Ok r /\
    Val.res_wrong_preds r
    = map (fun s => (Val.top1_pred s, snd s))
        (filter (Val.is_wrong 10)
           (combine [[10; 190; 50]; [200; 8; 300]] [15; 5])) /\
    Nat.add (length (Val.res_wrong_preds r))
      (Val.count_hits (Val.top1_hit 10)
         [[10; 190; 50]; [200; 8; 300]] [15; 5]) = length [15; 5].
Proof.
  split; [exact ok_shape_example |].
  exact (wrong_preds_are_the_misses _ _ _ 10 ok_shape_example).
Defined.

(** X3: [bias_ori] lists the rank-0 bias of every sample in order, and the
    three printed counters partition it: "large" counts the biases of at
    least 170, "small" those of at most 5, "correct" the ones in between. *)
Theorem buckets_partition_the_batch (pred pred_post : list (list Z))
    (targets : list Z) (threshold : Z) :
  ok_shape pred pred_post targets ->
  exists r,
    CalculateTopk_and_GetWrongSample pred pred_post targets threshold = Ok r /\
    res_bias_ori r = map top1_bias (combine pred targets) /\
    length (res_bias_ori r) = length targets /\
    res_buckets r
    = (length (filter (fun b => (5 <? b) && (b <? 170)) (res_bias_ori r)),
       length (filter (fun b => b >=? 170) (res_bias_ori r)),
       length (filter (fun b => b <=? 5) (res_bias_ori r))) /\
    (let '(mid, large, small) := res_buckets r in
     Nat.add (Nat.add mid large) small = length targets).
Proof.
  intros Hok.
  destruct (CalculateTopk_fields pred pred_post targets threshold Hok)
    as (r & Hr & _ & _ & _ & _ & _ & Hb & Hk).
  destruct Hok as (Hp & _ & _).
  rewrite fold_bias_ori in Hb. cbn [bias_ori init_state app] in Hb.
  destruct (fold_buckets threshold (combine pred targets) init_state)
    as (Hl & Hs & Hc).
  cbn zeta in Hk. rewrite Hl, Hs, Hc in Hk.
  cbn [large_bias_count samll_bias_count correct_bias_count init_state
       Nat.add] in Hk.
  rewrite <- Hb in Hk.
  assert (Hlen : length (res_bias_ori r) = length targets).
  { rewrite Hb, length_map, length_combine. lia. }
  exists r. repeat (split; [assumption |]).
  rewrite Hk, <- Hlen. clear.
  induction (res_bias_ori r) as [| b l IH]; [reflexivity |].
  cbn [filter length].
  destruct (Z.geb_spec b 170); destruct (Z.leb_spec b 5);
    destruct (Z.ltb_spec 5 b); destruct (Z.ltb_spec b 170);
    cbn [andb length]; lia.
Qed.

Lemma buckets_partition_the_batch_witness :
  Val.ok_shape [[10; 190; 50]; [200; 8; 300]] [[10; 190; 50]; [200; 8; 300]]
    [15; 5] /\
  exists r,
    Val.CalculateTopk_and_GetWrongSample
      [[10; 190; 50]; [200; 8; 300]] [[10; 190; 50]; [200; 8; 300]]
      [15; 5] 10 = Ok r /\
    Val.res_bias_ori r = [5; 165] /\
    Val.res_buckets r = (1%nat, 0%nat, 1%nat).
Proof.
  split; [exact ok_shape_example |].
  destruct (buckets_partition_the_batch _ _ _ 10 ok_shape_example)
    as (r & Hr & Hb & _ & Hk & _).
  exists r. split; [exact Hr |]. split; [exact Hb |].
  rewrite Hk, Hb. reflexivity.
Defined.

Lemma head_le_any_le (t : Z) (row : list Z) :
  head_le t row = true -> any_le t row = true.
Proof.
  destruct row as [| b0 row]; [discriminate |].
  unfold head_le, any_le. cbn [existsb]. intros ->. reflexivity.
Qed.

Lemma acc_pair_ordered (B : list (list Z)) (t : Z) :
  B <> [] -> le_value (fst (acc_pair B t)) (snd (acc_pair B t)).
Proof.
  intros HB. unfold acc_pair. cbn [fst snd].
  eapply is_value_le; [apply mean_ind | apply mean_ind |]; try exact HB.
  apply fraction_le. apply filter_length_le. apply head_le_any_le.
Qed.

Lemma final_bias_length (pred : list (list Z)) (targets : list Z) :
  (length targets <= length pred)%nat ->
  length (final_bias pred targets) = length pred.
Proof.
  intros H. unfold final_bias, bias_rows.
  rewrite length_app, length_map, length_combine, length_skipn. lia.
Qed.

Lemma final_bias_not_nil (pred : list (list Z)) (targets : list Z) :
  (length targets <= length pred)%nat -> pred <> [] ->
  final_bias pred targets <> [].
Proof.
  intros H Hne E. apply (f_equal (@length _)) in E.
  rewrite final_bias_length in E by exact H.
  destruct pred; [congruence | discriminate].
Qed.

(** X4: on a non-empty batch the top-1 accuracy never exceeds the top-K
    accuracy, at the configured threshold and at every point of the sweep. *)
Theorem top1_le_topk (pred pred_post : list (list Z)) (targets : list Z)
    (threshold : Z) :
  ok_shape pred pred_post targets -> pred <> [] ->
  exists r,
    CalculateTopk_and_GetWrongSample pred pred_post targets threshold = Ok r /\
    le_value (top1 r) (top5 r) /\
    Forall (fun p => le_value (fst p) (snd p)) (res_topk_list r).
Proof.
  intros Hok Hne.
  destruct (CalculateTopk_fields pred pred_post targets threshold Hok)
    as (r & Hr & _ & Hpair & Hlist & _).
  destruct Hok as (Hp & _ & _).
  pose proof (final_bias_not_nil pred targets Hp Hne) as HB.
  exists r. split; [exact Hr |]. split.
  - pose proof (acc_pair_ordered _ threshold HB) as H.
    rewrite <- Hpair in H. exact H.
  - rewrite Hlist. apply Forall_forall. intros p Hin.
    apply in_map_iff in Hin. destruct Hin as (i & <- & _).
    apply acc_pair_ordered. exact HB.
Qed.

Lemma top1_le_topk_witness :
  Val.ok_shape [[10; 190; 50]; [200; 8; 300]] [[10; 190; 50]; [200; 8; 300]]
    [15; 5] /\
  [[10; 190; 50]; [200; 8; 300]] <> [] /\
  exists r,
    Val.CalculateTopk_and_GetWrongSample
      [[10; 190; 50]; [200; 8; 300]] [[10; 190; 50]; [200; 8; 300]]
      [15; 5] 4 = Ok r /\
    Val.le_value (Val.top1 r) (Val.top5 r) /\
    Forall (fun p => Val.le_value (fst p) (snd p)) (Val.res_topk_list r).
Proof.
  assert (Hne : [[10; 190; 50]; [200; 8; 300]] <> []) by discriminate.
  split; [exact ok_shape_example |]. split; [exact Hne |].
  exact (top1_le_topk _ _ _ 4 ok_shape_example Hne).
Defined.

Lemma fraction_full (n : nat) : (0 < n)%nat -> (fraction n n == 1)%Q.
Proof.
  intros H. unfold fraction. apply Qmult_inv_r.
  unfold Qeq. simpl. lia.
Qed.

Lemma fraction_none (n : nat) : (fraction 0 n == 0)%Q.
Proof. unfold fraction, Qdiv. apply Qmult_0_l. Qed.

Lemma filter_all {A : Type} (h : A -> bool) (l : list A) :
  Forall (fun x => h x = true) l -> filter h l = l.
Proof.
  induction 1 as [| x l Hx _ IH]; simpl; [reflexivity |].
  rewrite Hx, IH. reflexivity.
Qed.

Lemma filter_none {A : Type} (h : A -> bool) (l : list A) :
  Forall (fun x => h x = false) l -> filter h l = [].
Proof.
  induction 1 as [| x l Hx _ IH]; simpl; [reflexivity |].
  rewrite Hx, IH. reflexivity.
Qed.

Lemma mean_ind_all {A : Type} (h : A -> bool) (l : list A) :
  l <> [] -> Forall (fun x => h x = true) l ->
  is_value (mean (map (fun x => ind (h x)) l)) 1.
Proof.
  intros Hne Hall. pose proof (mean_ind h l Hne) as H.
  rewrite (filter_all h l Hall) in H.
  destruct (mean _) as [q |]; [| contradiction].
  simpl in *. rewrite H. apply fraction_full.
  destruct l; [congruence | simpl; lia].
Qed.

Lemma mean_ind_none {A : Type} (h : A -> bool) (l : list A) :
  l <> [] -> Forall (fun x => h x = false) l ->
  is_value (mean (map (fun x => ind (h x)) l)) 0.
Proof.
  intros Hne Hall. pose proof (mean_ind h l Hne) as H.
  rewrite (filter_none h l Hall) in H.
  destruct (mean _) as [q |]; [| contradiction].
  simpl in *. rewrite H. apply fraction_none.
Qed.

(** With a target for every row, and angles in [0,360), every bias lies in
    [0,180]. *)
Lemma bias_rows_in_range (pred : list (list Z)) :
  forall targets,
    angles_in_range pred targets ->
    Forall (Forall (fun b => 0 <= b <= 180)) (bias_rows pred targets).
Proof.
  unfold angles_in_range, bias_rows.
  induction pred as [| row pred IH]; intros targets [Hp Ht]; simpl.
  - constructor.
  - destruct targets as [| target targets]; [constructor |].
    inversion Hp as [| ? ? Hrow Hrest]; inversion Ht as [| ? ? Htar Htars];
      subst.
    constructor; [| apply IH; split; assumption].
    cbn [fst snd]. apply Forall_map.
    eapply Forall_impl; [| exact Hrow].
    intros p Hpa. apply bias_of_range; assumption.
Qed.

Lemma final_bias_full (pred : list (list Z)) (targets : list Z) :
  length pred = length targets -> final_bias pred targets = bias_rows pred targets.
Proof.
  intros H. unfold final_bias. rewrite <- H, skipn_all, app_nil_r.
  reflexivity.
Qed.

Lemma top1_bias_in_range (pred : list (list Z)) :
  forall targets,
    nonempty_rows pred -> angles_in_range pred targets ->
    Forall (fun s => 0 <= top1_bias s <= 180) (combine pred targets).
Proof.
  unfold angles_in_range, nonempty_rows.
  induction pred as [| row pred IH]; intros targets Hne [Hp Ht]; simpl.
  - constructor.
  - destruct targets as [| target targets]; [constructor |].
    inversion Hp as [| ? ? Hrow Hrest]; inversion Ht as [| ? ? Htar Htars];
      inversion Hne as [| ? ? Hr Hnes]; subst.
    constructor; [| apply IH; try split; assumption].
    unfold top1_bias, top1_pred. cbn [fst snd].
    destruct row as [| p0 row]; [congruence |].
    inversion Hrow; subst. cbn [hd]. apply bias_of_range; assumption.
Qed.

(** X5: with a target for every row and all angles in [0,360), a threshold
    of 180 or more makes every sample a hit: both accuracies are 1 and no
    sample is reported wrong. *)
Theorem threshold_180_all_correct (pred pred_post : list (list Z))
    (targets : list Z) (threshold : Z) :
  ok_shape pred pred_post targets -> length pred = length targets ->
  pred <> [] -> angles_in_range pred targets -> 180 <= threshold ->
  exists r,
    CalculateTopk_and_GetWrongSample pred pred_post targets threshold = Ok r /\
    is_value (top1 r) 1 /\ is_value (top5 r) 1 /\ res_wrong_preds r = [].
Proof.
  intros Hok Hlen Hne Hang Ht.
  destruct (CalculateTopk_fields pred pred_post targets threshold Hok)
    as (r & Hr & _ & Hpair & _ & _ & Hw & _).
  destruct Hok as (Hp & _ & Hrows).
  rewrite final_bias_full in Hpair by exact Hlen.
  pose proof (bias_rows_in_range pred targets Hang) as Hrange.
  pose proof (bias_rows_nonempty pred targets Hrows) as HBne.
  assert (HB : bias_rows pred targets <> []).
  { rewrite <- final_bias_full by exact Hlen.
    apply final_bias_not_nil; assumption. }
  assert (Hhead : Forall (fun row => head_le threshold row = true)
                    (bias_rows pred targets)).
  { apply Forall_forall. intros row Hin.
    rewrite Forall_forall in Hrange. specialize (Hrange row Hin).
    unfold nonempty_rows in HBne. rewrite Forall_forall in HBne.
    specialize (HBne row Hin).
    destruct row as [| b0 row]; [congruence |].
    inversion Hrange; subst. simpl. apply Z.leb_le. lia. }
  assert (Hany : Forall (fun row => any_le threshold row = true)
                   (bias_rows pred targets)).
  { eapply Forall_impl; [| exact Hhead]. intros row. apply head_le_any_le. }
  unfold acc_pair in Hpair. injection Hpair as H1 H5.
  exists r. split; [exact Hr |].
  split; [rewrite H1; apply mean_ind_all; assumption |].
  split; [rewrite H5; apply mean_ind_all; assumption |].
  rewrite Hw, fold_wrong_preds. cbn [wrong_preds init_state app].
  rewrite filter_none; [reflexivity |].
  eapply Forall_impl; [| exact (top1_bias_in_range pred targets Hrows Hang)].
  intros s Hs. cbv beta in Hs. unfold is_wrong. rewrite Z.gtb_ltb. apply Z.ltb_ge. lia.
Qed.

Lemma angles_example :
  Val.angles_in_range [[10; 190; 50]; [200; 8; 300]] [15; 5].
Proof.
  unfold Val.angles_in_range, Val.is_angle.
  split; repeat constructor; lia.
Defined.

Lemma threshold_180_all_correct_witness :
  Val.ok_shape [[10; 190; 50]; [200; 8; 300]] [[10; 190; 50]; [200; 8; 300]]
    [15; 5] /\
  length [[10; 190; 50]; [200; 8; 300]] = length [15; 5] /\
  [[10; 190; 50]; [200; 8; 300]] <> [] /\
  Val.angles_in_range [[10; 190; 50]; [200; 8; 300]] [15; 5] /\
  180 <= 180 /\
  exists r,
    Val.CalculateTopk_and_GetWrongSample
      [[10; 190; 50]; [200; 8; 300]] [[10; 190; 50]; [200; 8; 300]]
      [15; 5] 180 = Ok r /\
    Val.is_value (Val.top1 r) 1 /\ Val.is_value (Val.top5 r) 1 /\
    Val.res_wrong_preds r = [].
Proof.
  assert (Hne : [[10; 190; 50]; [200; 8; 300]] <> []) by discriminate.
  assert (Ht : 180 <= 180) by lia.
  split; [exact ok_shape_example |]. split; [reflexivity |].
  split; [exact Hne |]. split; [exact angles_example |]. split; [exact Ht |].
  exact (threshold_180_all_correct _ _ _ 180 ok_shape_example eq_refl Hne
           angles_example Ht).
Defined.

(** X6: with a target for every row and all angles in [0,360), a negative
    threshold leaves the sweep empty, both accuracies 0, and every sample in
    [wrong_preds]. *)
Theorem negative_threshold_all_wrong (pred pred_post : list (list Z))
    (targets : list Z) (threshold : Z) :
  ok_shape pred pred_post targets -> length pred = length targets ->
  pred <> [] -> angles_in_range pred targets -> threshold < 0 ->
  exists r,
    CalculateTopk_and_GetWrongSample pred pred_post targets threshold = Ok r /\
    is_value (top1 r) 0 /\ is_value (top5 r) 0 /\
    res_topk_list r = [] /\
    res_wrong_preds r
    = map (fun s => (top1_pred s, snd s)) (combine pred targets).
Proof.
  intros Hok Hlen Hne Hang Ht.
  destruct (CalculateTopk_fields pred pred_post targets threshold Hok)
    as (r & Hr & _ & Hpair & Hlist & _ & Hw & _).
  destruct Hok as (Hp & _ & Hrows).
  rewrite final_bias_full in Hpair by exact Hlen.
  pose proof (bias_rows_in_range pred targets Hang) as Hrange.
  assert (HB : bias_rows pred targets <> []).
  { rewrite <- final_bias_full by exact Hlen.
    apply final_bias_not_nil; assumption. }
  assert (Hany : Forall (fun row => any_le threshold row = false)
                   (bias_rows pred targets)).
  { eapply Forall_impl; [| exact Hrange]. intros row Hrow.
    unfold any_le. destruct (existsb _ row) eqn:E; [| reflexivity].
    apply existsb_exists in E. destruct E as (b & Hin & Hb).
    rewrite Forall_forall in Hrow. specialize (Hrow b Hin).
    apply Z.leb_le in Hb. lia. }
  assert (Hhead : Forall (fun row => head_le threshold row = false)
                    (bias_rows pred targets)).
  { eapply Forall_impl; [| exact Hany]. intros row Hrow.
    destruct (head_le threshold row) eqn:E; [| reflexivity].
    apply head_le_any_le in E. congruence. }
  unfold acc_pair in Hpair. injection Hpair as H1 H5.
  exists r. split; [exact Hr |].
  split; [rewrite H1; apply mean_ind_none; assumption |].
  split; [rewrite H5; apply mean_ind_none; assumption |].
  split; [rewrite Hlist, range_upto_negative by exact Ht; reflexivity |].
  rewrite Hw, fold_wrong_preds. cbn [wrong_preds init_state app].
  rewrite filter_all; [reflexivity |].
  eapply Forall_impl; [| exact (top1_bias_in_range pred targets Hrows Hang)].
  intros s Hs. cbv beta in Hs. unfold is_wrong. rewrite Z.gtb_ltb. apply Z.ltb_lt. lia.
Qed.

Lemma negative_threshold_all_wrong_witness :
  Val.ok_shape [[10; 190; 50]; [200; 8; 300]] [[10; 190; 50]; [200; 8; 300]]
    [15; 5] /\
  length [[10; 190; 50]; [200; 8; 300]] = length [15; 5] /\
  [[10; 190; 50]; [200; 8; 300]] <> [] /\
  Val.angles_in_range [[10; 190; 50]; [200; 8; 300]] [15; 5] /\
  -1 < 0 /\
  exists r,
    Val.CalculateTopk_and_GetWrongSample
      [[10; 190; 50]; [200; 8; 300]] [[10; 190; 50]; [200; 8; 300]]
      [15; 5] (-1) = Ok r /\
    Val.is_value (Val.top1 r) 0 /\ Val.is_value (Val.top5 r) 0 /\
    Val.res_topk_list r = [] /\
    Val.res_wrong_preds r = [(10, 15); (200, 5)].
Proof.
  assert (Hne : [[10; 190; 50]; [200; 8; 300]] <> []) by discriminate.
  assert (Ht : -1 < 0) by lia.
  split; [exact ok_shape_example |]. split; [reflexivity |].
  split; [exact Hne |]. split; [exact angles_example |]. split; [exact Ht |].
  exact (negative_threshold_all_wrong _ _ _ (-1) ok_shape_example eq_refl Hne
           angles_example Ht).
Defined.

(** X7: fewer targets than rows is no error.  The rows without a target
    stay in [bias_topk] as the raw predicted angles, are compared with the
    threshold like biases, and count in the denominator of the accuracy. *)
Theorem rows_without_target_are_scored_raw (pred pred_post : list (list Z))
    (targets : list Z) (threshold : Z) :
  ok_shape pred pred_post targets -> pred <> [] ->
  exists r,
    CalculateTopk_and_GetWrongSample pred pred_post targets threshold = Ok r /\
    res_bias_topk r
    = bias_rows pred targets ++ skipn (length targets) pred /\
    length (res_bias_topk r) = length pred /\
    (targets = [] -> res_bias_topk r = pred) /\
    is_value (top1 r)
      (fraction (length (filter (head_le threshold) (res_bias_topk r)))
         (length pred)) /\
    is_value (top5 r)
      (fraction (length (filter (any_le threshold) (res_bias_topk r)))
         (length pred)).
Proof.
  intros Hok Hne.
  destruct (CalculateTopk_fields pred pred_post targets threshold Hok)
    as (r & Hr & HB & Hpair & _).
  destruct Hok as (Hp & _ & _).
  pose proof (final_bias_not_nil pred targets Hp Hne) as HBne.
  pose proof (final_bias_length pred targets Hp) as HBlen.
  unfold acc_pair in Hpair. injection Hpair as H1 H5.
  exists r. split; [exact Hr |].
  split; [exact HB |].
  split; [rewrite HB; exact HBlen |].
  split.
  { intros ->. rewrite HB. unfold final_bias, bias_rows.
    rewrite combine_nil. reflexivity. }
  rewrite H1, H5, HB, <- HBlen. split; apply mean_ind; exact HBne.
Qed.

Lemma ok_shape_short :
  Val.ok_shape [[10; 190; 50]; [200; 8; 300]] [[10; 190; 50]; [200; 8; 300]]
    [15].
Proof.
  unfold Val.ok_shape, Val.nonempty_rows. cbn [length].
  split; [lia | split; [lia |]].
  repeat constructor; discriminate.
Defined.

Lemma rows_without_target_are_scored_raw_witness :
  Val.ok_shape [[10; 190; 50]; [200; 8; 300]] [[10; 190; 50]; [200; 8; 300]]
    [15] /\
  [[10; 190; 50]; [200; 8; 300]] <> [] /\
  exists r,
    Val.CalculateTopk_and_GetWrongSample
      [[10; 190; 50]; [200; 8; 300]] [[10; 190; 50]; [200; 8; 300]]
      [15] 10 = Ok r /\
    Val.res_bias_topk r = [[5; 175; 35]; [200; 8; 300]] /\
    Val.is_value (Val.top5 r) (Val.fraction 2 2).
Proof.
  assert (Hne : [[10; 190; 50]; [200; 8; 300]] <> []) by discriminate.
  split; [exact ok_shape_short |]. split; [exact Hne |].
  destruct (rows_without_target_are_scored_raw _ _ _ 10 ok_shape_short Hne)
    as (r & Hr & HB & _ & _ & _ & H5).
  exists r. split; [exact Hr |]. split; [exact HB |].
  rewrite HB in H5. exact H5.
Defined.

(** X8: the tensors [correct] and the pair (top1, top5) that are returned
    belong to the configured threshold, although the sweep rebinds them:
    [correct] is the 0/1 image of [bias_topk] at the threshold and, for a
    threshold of 0 or more, the last pair of the sweep is (top1, top5). *)
Theorem results_belong_to_threshold (pred pred_post : list (list Z))
    (targets : list Z) (threshold : Z) :
  ok_shape pred pred_post targets ->
  exists r,
    CalculateTopk_and_GetWrongSample pred pred_post targets threshold = Ok r /\
    res_correct r = where_le (res_bias_topk r) threshold /\
    (0 <= threshold ->
     nth_error (res_topk_list r) (Z.to_nat threshold) = Some (top1 r, top5 r) /\
     length (res_topk_list r) = S (Z.to_nat threshold)).
Proof.
  intros Hok.
  destruct (CalculateTopk_fields pred pred_post targets threshold Hok)
    as (r & Hr & HB & Hpair & Hlist & Hc & _).
  exists r. split; [exact Hr |].
  split; [rewrite HB; exact Hc |].
  intros Ht. rewrite Hlist, nth_error_map, range_upto_nth by lia.
  rewrite Hpair, length_map, range_upto_length.
  split; [reflexivity | lia].
Qed.

Lemma results_belong_to_threshold_witness :
  Val.ok_shape [[10; 190; 50]; [200; 8; 300]] [[10; 190; 50]; [200; 8; 300]]
    [15; 5] /\
  exists r,
    Val.CalculateTopk_and_GetWrongSample
      [[10; 190; 50]; [200; 8; 300]] [[10; 190; 50]; [200; 8; 300]]
      [15; 5] 4 = Ok r /\
    Val.res_correct r = Val.where_le (Val.res_bias_topk r) 4 /\
    nth_error (Val.res_topk_list r) 4 = Some (Val.top1 r, Val.top5 r).
Proof.
  split; [exact ok_shape_example |].
  destruct (results_belong_to_threshold _ _ _ 4 ok_shape_example)
    as (r & Hr & Hc & Hlast).
  exists r. split; [exact Hr |]. split; [exact Hc |].
  apply Hlast. lia.
Defined.



End EvaluatorResults.

Section GaussianCompare.

Import Val.
Open Scope Z_scope.

Lemma column0Z_ok (y : list (list Z)) :
  nonempty_rows y -> column0Z y = Ok (map (hd 0) y).
Proof.
  unfold column0Z.
  induction 1 as [| row y Hrow _ IH]; simpl; [reflexivity |].
  destruct row as [| p row]; [congruence |].
  rewrite IH. reflexivity.
Qed.

Lemma differing_sym (c : list Z) :
  forall c',
    length (filter (fun xy => negb (fst xy =? snd xy)) (combine c c'))
    = length (filter (fun xy => negb (fst xy =? snd xy)) (combine c' c)).
Proof.
  induction c as [| a c IH]; intros [| b c']; simpl; try reflexivity.
  rewrite (Z.eqb_sym b a).
  destruct (a =? b); simpl; rewrite IH; reflexivity.
Qed.

Lemma differing_bound (c : list Z) :
  forall c',
    le (length (filter (fun xy => negb (fst xy =? snd xy)) (combine c c')))
       (Nat.min (length c) (length c')).
Proof.
  induction c as [| a c IH]; intros [| b c']; simpl; try lia.
  specialize (IH c'). destruct (a =? b); simpl; lia.
Qed.

Lemma differing_zero (c : list Z) :
  forall c',
    length (filter (fun xy => negb (fst xy =? snd xy)) (combine c c')) = 0%nat
    <-> firstn (length c') c = firstn (length c) c'.
Proof.
  induction c as [| a c IH]; intros [| b c'];
    try (simpl; split; reflexivity).
  specialize (IH c'). cbn [combine filter fst snd length firstn].
  destruct (Z.eqb_spec a b) as [-> | Hne]; cbn [negb].
  - rewrite IH. split; intros H; [rewrite H; reflexivity |].
    injection H as H. exact H.
  - split; intros H; [discriminate | injection H as H _; contradiction].
Qed.

Lemma differing_self (c : list Z) :
  length (filter (fun xy => negb (fst xy =? snd xy)) (combine c c)) = 0%nat.
Proof.
  induction c as [| a c IH]; simpl; [reflexivity |].
  rewrite Z.eqb_refl. exact IH.
Qed.

(** X10: on two tensors without empty rows [Guas_Compare] counts the rows,
    among those both have, whose first entries differ: the count is the same
    in either order, at most the smaller number of rows, zero against
    itself, and zero exactly when the first columns agree on the rows both
    have. *)
Theorem Guas_Compare_counts (y y_gau : list (list Z)) :
  nonempty_rows y -> nonempty_rows y_gau ->
  exists n,
    Guas_Compare y y_gau = Ok n /\
    Guas_Compare y_gau y = Ok n /\
    (n <= Nat.min (length y) (length y_gau))%nat /\
    Guas_Compare y y = Ok 0%nat /\
    (n = 0%nat <->
     firstn (length y_gau) (map (hd 0) y) = firstn (length y) (map (hd 0) y_gau)).
Proof.
  intros Hy Hg. unfold Guas_Compare.
  rewrite (column0Z_ok y Hy), (column0Z_ok y_gau Hg). cbn [bind].
  eexists. split; [reflexivity |].
  split; [rewrite differing_sym; reflexivity |].
  split; [rewrite <- (length_map (hd 0) y), <- (length_map (hd 0) y_gau);
          apply differing_bound |].
  split; [rewrite differing_self; reflexivity |].
  rewrite differing_zero, !length_map. reflexivity.
Qed.

Lemma Guas_Compare_counts_witness :
  Val.nonempty_rows [[10; 190]; [200; 8]; [7; 7]] /\
  Val.nonempty_rows [[10; 50]; [201; 8]] /\
  exists n,
    Val.Guas_Compare [[10; 190]; [200; 8]; [7; 7]] [[10; 50]; [201; 8]] = Ok n /\
    Val.Guas_Compare [[10; 50]; [201; 8]] [[10; 190]; [200; 8]; [7; 7]] = Ok n /\
    (n <= 2)%nat.
Proof.
  assert (H1 : Val.nonempty_rows [[10; 190]; [200; 8]; [7; 7]])
    by (repeat constructor; discriminate).
  assert (H2 : Val.nonempty_rows [[10; 50]; [201; 8]])
    by (repeat constructor; discriminate).
  split; [exact H1 |]. split; [exact H2 |].
  destruct (Guas_Compare_counts _ _ H1 H2) as (n & Ha & Hb & Hc & _).
  exists n. repeat split; assumption.
Defined.

(** An empty row has no first entry. *)
Example Guas_Compare_empty_row :
  Guas_Compare [[1]; []] [[1]; [2]] = Err IndexError /\
  Guas_Compare [[1; 5]; [3]] [[1]; [2]; [9]] = Ok 1%nat.
Proof. split; reflexivity. Qed.

End GaussianCompare.

(** * Further properties of the reconstructor *)

Section MatcherMore.

Import ChooseBox.
Open Scope R_scope.

Lemma first_nearest_unique (px py : R) (img : image) (lines : list label)
    (i j : nat) :
  first_nearest px py img lines i -> first_nearest px py img lines j -> i = j.
Proof.
  intros (c & Hc & Hmin & Hfirst) (c' & Hc' & Hmin' & Hfirst').
  destruct (Nat.lt_trichotomy i j) as [Hlt | [Heq | Hgt]]; [| exact Heq |].
  - pose proof (Hfirst' i c Hlt Hc) as H1.
    pose proof (Hmin c' (nth_error_In _ _ Hc')) as H2. lra.
  - pose proof (Hfirst j c' Hgt Hc') as H1.
    pose proof (Hmin' c (nth_error_In _ _ Hc)) as H2. lra.
Qed.

(** X11: on a non-empty list the matcher returns the extents of one line:
    the first one, in file order, at the least squared distance from the
    point it is given, the lines' positions being scaled by the image size;
    that line is unique. *)
Theorem matcher_returns_first_nearest (rx ry : R) (img : image)
    (lines : list label) :
  lines <> [] ->
  exists i c,
    nth_error lines i = Some c /\
    check_neareat_coord rx ry img lines = Ok (l_w c, l_h c) /\
    (forall c', In c' lines -> sq_dist rx ry img c <= sq_dist rx ry img c') /\
    (forall j c', (j < i)%nat -> nth_error lines j = Some c' ->
                  sq_dist rx ry img c < sq_dist rx ry img c') /\
    (forall j, first_nearest rx ry img lines j -> j = i).
Proof.
  intros Hne.
  destruct (check_neareat_coord_spec rx ry img lines Hne)
    as (i & c & Hc & Hnear & Hres).
  exists i, c. split; [exact Hc |]. split; [exact Hres |].
  pose proof Hnear as (c0 & Hc0 & Hmin & Hfirst).
  assert (c0 = c) by congruence. subst c0.
  split; [exact Hmin |]. split; [exact Hfirst |].
  intros j Hj. eapply first_nearest_unique; eassumption.
Qed.

Lemma matcher_returns_first_nearest_witness :
  [Inputs.cand_a; Inputs.cand_b] <> [] /\
  exists i c,
    nth_error [Inputs.cand_a; Inputs.cand_b] i = Some c /\
    ChooseBox.check_neareat_coord 141 141 Inputs.r_img282
      [Inputs.cand_a; Inputs.cand_b] = Ok (ChooseBox.l_w c, ChooseBox.l_h c) /\
    (forall c', In c' [Inputs.cand_a; Inputs.cand_b] ->
       ChooseBox.sq_dist 141 141 Inputs.r_img282 c
       <= ChooseBox.sq_dist 141 141 Inputs.r_img282 c').
Proof.
  assert (Hne : [Inputs.cand_a; Inputs.cand_b] <> []) by discriminate.
  split; [exact Hne |].
  destruct (matcher_returns_first_nearest 141 141 Inputs.r_img282 _ Hne)
    as (i & c & Hc & Hres & Hmin & _).
  exists i, c. repeat split; assumption.
Defined.

End MatcherMore.

Section ProjectionMore.

Import ChooseBox.
Open Scope R_scope.

(** X12: whatever the size and the angle, the centre of the image projects
    onto the centre of the rotated canvas. *)
Theorem rotate_point_centre_to_centre (w h : Z) (theta : R) :
  let side := trunc ((IZR w + IZR h) * cos (radians theta)) in
  rotate_point (IZR w / 2) (IZR h / 2) w h theta
  = (trunc (IZR side / 2), trunc (IZR side / 2)).
Proof.
  cbv zeta. unfold rotate_point.
  f_equal; f_equal; field.
Qed.

Lemma radians_0 : radians 0 = 0.
Proof. unfold radians. ring. Qed.

(** X13: at angle 0 the projection is not the identity: the canvas side is
    [W + H] and every point is shifted by [(H/2, W/2)]. *)
Theorem rotate_point_angle_0 (x y : R) (w h : Z) :
  trunc ((IZR w + IZR h) * cos (radians 0)) = (w + h)%Z /\
  rotate_point x y w h 0 = (trunc (x + IZR h / 2), trunc (y + IZR w / 2)).
Proof.
  assert (Hside : trunc ((IZR w + IZR h) * cos (radians 0)) = (w + h)%Z).
  { rewrite radians_0, cos_0, Rmult_1_r, <- plus_IZR. apply trunc_IZR. }
  split; [exact Hside |].
  unfold rotate_point. rewrite Hside, radians_0, cos_0, sin_0, plus_IZR.
  f_equal; f_equal; field.
Qed.

Lemma Int_part_nonneg (r : R) : 0 <= r -> (0 <= Int_part r)%Z.
Proof.
  intros H. destruct (base_Int_part r) as [_ H2].
  apply Z.lt_succ_r. apply lt_IZR. rewrite succ_IZR. lra.
Qed.

Lemma trunc_range (r : R) (z : Z) :
  -1 < r -> r < IZR z + 1 -> (0 <= z)%Z -> (0 <= trunc r <= z)%Z.
Proof.
  intros Hlo Hhi Hz. unfold trunc.
  destruct (Rle_dec 0 r) as [H0 | H0].
  - split; [apply Int_part_nonneg; exact H0 |].
    destruct (base_Int_part r) as [H1 _].
    apply Z.lt_succ_r. apply lt_IZR. rewrite succ_IZR. lra.
  - assert (Hzero : Int_part (- r) = 0%Z) by (apply Int_part_between; lra).
    rewrite Hzero. lia.
Qed.

(** X14: at 45 degrees every point of the [W x H] image lands on the
    rotated canvas: both projected coordinates lie between 0 and the canvas
    side. *)
Theorem rotate_point_45_inside_canvas (x y : R) (img : image) :
  (0 <= shape1 img)%Z -> (0 <= shape0 img)%Z ->
  0 <= x <= IZR (shape1 img) -> 0 <= y <= IZR (shape0 img) ->
  let side := fst (rotated45_size img) in
  let '(rx, ry) := rotate_point x y (shape1 img) (shape0 img) 45 in
  (0 <= rx <= side)%Z /\ (0 <= ry <= side)%Z.
Proof.
  intros Hw Hh Hx Hy. cbv zeta. unfold rotated45_size, rotate_point.
  cbn [fst].
  apply IZR_le in Hw, Hh.
  pose proof cos_45_bounds as [Hlo Hhi].
  pose proof sin_cos_PI4 as Hsc. rewrite <- radians_45 in Hsc. rewrite Hsc.
  set (c := cos (radians 45)) in *.
  set (W := IZR (shape1 img)) in *. set (H := IZR (shape0 img)) in *.
  assert (Hprod : 0 <= (W + H) * c) by (apply Rmult_le_pos; lra).
  set (side := trunc ((W + H) * c)).
  assert (Hside : IZR side <= (W + H) * c < IZR side + 1).
  { unfold side, trunc. destruct (Rle_dec 0 ((W + H) * c)); [| contradiction].
    destruct (base_Int_part ((W + H) * c)). lra. }
  assert (Hside0 : (0 <= side)%Z).
  { unfold side, trunc. destruct (Rle_dec 0 ((W + H) * c)); [| contradiction].
    apply Int_part_nonneg. exact Hprod. }
  split; apply trunc_range; try exact Hside0; nra.
Qed.

Lemma rotate_point_45_inside_canvas_witness :
  (0 <= ChooseBox.shape1 Inputs.img200)%Z /\
  (0 <= ChooseBox.shape0 Inputs.img200)%Z /\
  0 <= 50 <= IZR (ChooseBox.shape1 Inputs.img200) /\
  0 <= 100 <= IZR (ChooseBox.shape0 Inputs.img200) /\
  let '(rx, ry) := ChooseBox.rotate_point 50 100 200 200 45 in
  (0 <= rx <= fst (ChooseBox.rotated45_size Inputs.img200))%Z /\
  (0 <= ry <= fst (ChooseBox.rotated45_size Inputs.img200))%Z.
Proof.
  assert (Hw : (0 <= shape1 Inputs.img200)%Z) by (cbn; lia).
  assert (Hh : (0 <= shape0 Inputs.img200)%Z) by (cbn; lia).
  assert (Hx : 0 <= 50 <= IZR (shape1 Inputs.img200)) by (cbn; lra).
  assert (Hy : 0 <= 100 <= IZR (shape0 Inputs.img200)) by (cbn; lra).
  repeat (split; [assumption |]).
  exact (rotate_point_45_inside_canvas 50 100 Inputs.img200 Hw Hh Hx Hy).
Defined.

End ProjectionMore.

Section BranchesMore.

Import ChooseBox.
Open Scope R_scope.

Lemma ambiguous_zone_int (a90 : Z) :
  in_ambiguous_zone a90 = true <-> (23 <= a90 <= 67)%Z.
Proof.
  rewrite ambiguous_zone_iff. split.
  - intros [Hlo Hhi]. split.
    + apply Z.lt_succ_r. apply lt_IZR.
      replace (IZR (Z.succ a90)) with (IZR a90 + 1) by (rewrite succ_IZR; ring).
      lra.
    + apply Z.lt_succ_r. apply lt_IZR. rewrite succ_IZR. lra.
  - intros [Hlo Hhi]. apply IZR_le in Hlo, Hhi. lra.
Qed.


(** X15: for an angle in [0,360) the folded angle [a90] is 0 or 90 exactly
    at the multiples of 90; there the loop body always returns and draws no
    oriented box, and nowhere else does it return without one. *)
Theorem no_oriented_box_at_right_angles (img r_img : image)
    (rlines : list label) (line : label) :
  (0 <= l_angle line < 360)%Z ->
  ((restrict_angle90 (l_angle line) = 0
    \/ restrict_angle90 (l_angle line) = 90)%Z
   <-> (l_angle line mod 90 = 0)%Z) /\
  ((l_angle line mod 90 = 0)%Z ->
   exists d, draw_line img r_img rlines line = Ok d /\ red_box d = None) /\
  (forall d, draw_line img r_img rlines line = Ok d ->
             (red_box d = None <-> (l_angle line mod 90 = 0)%Z)).
Proof.
  intros Hangle.
  assert (Hiff : (restrict_angle90 (l_angle line) = 0
                  \/ restrict_angle90 (l_angle line) = 90)%Z
                 <-> (l_angle line mod 90 = 0)%Z).
  { unfold restrict_angle90, restrict_angle180.
    destruct (Z.ltb_spec (l_angle line) 180);
      match goal with |- context [(?a <=? 90)%Z] =>
        destruct (Z.leb_spec a 90) end.
    - split; [intros [H1 | H1]; rewrite H1; reflexivity |].
      intros Hm. apply Z.mod_divide in Hm; [| lia].
      destruct Hm as [k Hk]. lia.
    - split; [lia |].
      intros Hm. apply Z.mod_divide in Hm; [| lia].
      destruct Hm as [k Hk]. lia.
    - split.
      + intros [H1 | H1];
          [replace (l_angle line) with 180%Z by lia
          | replace (l_angle line) with 270%Z by lia]; reflexivity.
      + intros Hm. apply Z.mod_divide in Hm; [| lia].
        destruct Hm as [k Hk]. lia.
    - split; [lia |].
      intros Hm. apply Z.mod_divide in Hm; [| lia].
      destruct Hm as [k Hk]. lia. }
  assert (Hrun : forall d, draw_line img r_img rlines line = Ok d ->
            (red_box d = None
             <-> (restrict_angle90 (l_angle line) = 0
                  \/ restrict_angle90 (l_angle line) = 90)%Z)).
  { intros d Hd. unfold draw_line in Hd. rewrite swap_axes_spec in Hd.
    destruct (negb (restrict_angle90 (l_angle line) =? 0)%Z
              && negb (restrict_angle90 (l_angle line) =? 90)%Z) eqn:Etest.
    - apply degenerate_test in Etest.
      destruct (if in_ambiguous_zone _ then _ else _) as [[rw rh] | e];
        [| discriminate].
      cbn [bind] in Hd. injection Hd as <-. cbn [red_box].
      split; [discriminate | lia].
    - injection Hd as <-. cbn [red_box]. split; [| reflexivity].
      intros _.
      destruct (Z.eqb_spec (restrict_angle90 (l_angle line)) 0);
        destruct (Z.eqb_spec (restrict_angle90 (l_angle line)) 90);
        simpl in Etest; try discriminate; auto. }
  split; [exact Hiff |]. split.
  - intros Hm. apply Hiff in Hm.
    assert (Hzone : in_ambiguous_zone (restrict_angle90 (l_angle line)) = false).
    { apply not_ambiguous_zone. destruct Hm as [-> | ->]; lra. }
    destruct (draw_line_outside_zone img r_img rlines line Hzone)
      as (d & Hd & _).
    exists d. split; [exact Hd |]. apply (Hrun d Hd). exact Hm.
  - intros d Hd. rewrite (Hrun d Hd). exact Hiff.
Qed.

Lemma no_oriented_box_at_right_angles_witness :
  (0 <= ChooseBox.l_angle Inputs.centre0 < 360)%Z /\
  exists d,
    ChooseBox.draw_line Inputs.img200 Inputs.r_img282 [] Inputs.centre0 = Ok d /\
    ChooseBox.red_box d = None.
Proof.
  assert (H : (0 <= l_angle Inputs.centre0 < 360)%Z) by (cbn; lia).
  split; [exact H |].
  destruct (no_oriented_box_at_right_angles Inputs.img200 Inputs.r_img282 []
              Inputs.centre0 H) as (_ & Hex & _).
  apply Hex. reflexivity.
Defined.

(** X16: on integer angles the ambiguous zone 22.5 < a90 < 67.5 is
    23 <= a90 <= 67; for an angle in [0,360) that is a folded angle [a45] of
    at least 23, so the trigonometric branch only runs with
    1 <= a45 <= 22. *)
Theorem trigonometric_branch_angles (angle : Z) :
  (0 <= angle < 360)%Z ->
  (in_ambiguous_zone (restrict_angle90 angle) = true
   <-> (23 <= restrict_angle90 angle <= 67)%Z) /\
  (in_ambiguous_zone (restrict_angle90 angle) = true
   <-> (23 <= restrict_angle45 angle)%Z) /\
  (negb (restrict_angle90 angle =? 0)%Z
   && negb (restrict_angle90 angle =? 90)%Z = true ->
   in_ambiguous_zone (restrict_angle90 angle) = false ->
   (1 <= restrict_angle45 angle <= 22)%Z).
Proof.
  intros Hangle.
  pose proof (restrict_angle90_range angle Hangle) as H90.
  pose proof (ambiguous_zone_int (restrict_angle90 angle)) as Hint.
  assert (H45 : (23 <= restrict_angle90 angle <= 67)%Z
                <-> (23 <= restrict_angle45 angle)%Z).
  { unfold restrict_angle45.
    destruct (Z.leb_spec (restrict_angle90 angle) 45); lia. }
  split; [exact Hint |]. split; [rewrite Hint; exact H45 |].
  intros Htest Hzone. apply degenerate_test in Htest.
  assert (Hnot : ~ (23 <= restrict_angle45 angle)%Z).
  { intros H. apply H45 in H. apply Hint in H. congruence. }
  unfold restrict_angle45 in *.
  destruct (Z.leb_spec (restrict_angle90 angle) 45); lia.
Qed.

Lemma trigonometric_branch_angles_witness :
  (0 <= 280 < 360)%Z /\
  (ChooseBox.in_ambiguous_zone (ChooseBox.restrict_angle90 280) = false ->
   (1 <= ChooseBox.restrict_angle45 280 <= 22)%Z).
Proof.
  assert (H : (0 <= 280 < 360)%Z) by lia.
  split; [exact H |].
  destruct (trigonometric_branch_angles 280 H) as (_ & _ & H3).
  apply H3. reflexivity.
Defined.

(** X17: fed the axis-aligned bounding box of a [tw x th] rectangle turned
    by an angle of cosine [c] and sine [s], the trigonometric branch returns
    [tw (c^2 - s^2)] and [th + 2 tw s^3 / c]: the first extent is the true
    one scaled by the cosine of twice the angle. *)
Theorem trigonometry_on_bounding_box (tw th a : R) :
  cos a <> 0 ->
  extents_by_trigonometry (tw * cos a + th * sin a) (tw * sin a + th * cos a)
    (cos a) (sin a)
  = (tw * cos (2 * a), th + 2 * tw * (sin a * sin a * sin a) / cos a).
Proof.
  intros Hc. unfold extents_by_trigonometry.
  pose proof (sin2_cos2 a) as Hunit. unfold Rsqr in Hunit.
  rewrite cos_2a.
  assert (Hrw : (tw * cos a + th * sin a) * cos a
                - (tw * sin a + th * cos a) * sin a
                = tw * (cos a * cos a - sin a * sin a)) by ring.
  rewrite Hrw. f_equal.
  apply Rmult_eq_reg_r with (r := cos a); [| exact Hc].
  unfold Rdiv. rewrite Rmult_assoc, Rinv_l, Rmult_1_r by exact Hc.
  rewrite Rmult_plus_distr_r.
  rewrite (Rmult_assoc (2 * tw * (sin a * sin a * sin a))), Rinv_l,
    Rmult_1_r by exact Hc.
  replace (cos a * cos a) with (1 - sin a * sin a) by lra.
  ring.
Qed.

Lemma trigonometry_on_bounding_box_witness :
  cos (ChooseBox.radians (IZR 20)) <> 0 /\
  ChooseBox.extents_by_trigonometry
    (18 * cos (ChooseBox.radians (IZR 20))
     + 38 * sin (ChooseBox.radians (IZR 20)))
    (18 * sin (ChooseBox.radians (IZR 20))
     + 38 * cos (ChooseBox.radians (IZR 20)))
    (cos (ChooseBox.radians (IZR 20))) (sin (ChooseBox.radians (IZR 20)))
  = (18 * cos (2 * ChooseBox.radians (IZR 20)),
     38 + 2 * 18 * (sin (ChooseBox.radians (IZR 20))
                    * sin (ChooseBox.radians (IZR 20))
                    * sin (ChooseBox.radians (IZR 20)))
          / cos (ChooseBox.radians (IZR 20))).
Proof.
  assert (H : cos (radians (IZR 20)) <> 0).
  { destruct (wedge_trig 20 ltac:(lia)) as (H1 & H2 & _). lra. }
  split; [exact H |].
  exact (trigonometry_on_bounding_box 18 38 (radians (IZR 20)) H).
Defined.

End BranchesMore.

Section DrawingMore.

Import ChooseBox.
Open Scope R_scope.

(** X18: the red box is the truncation of an exact rectangle: its four
    corners are centred on the detection, two consecutive sides have lengths
    [|rw|] and [|rh|] and are perpendicular. *)
Theorem oriented_box_is_rectangle (x y rw rh : R) (angle : Z) :
  let '(p1, p2, p3, p4) := exact_corners x y rw rh angle in
  corners x y rw rh angle
  = (trunc_point p1, trunc_point p2, trunc_point p3, trunc_point p4) /\
  (fst p1 + fst p3) / 2 = x /\ (snd p1 + snd p3) / 2 = y /\
  (fst p2 + fst p4) / 2 = x /\ (snd p2 + snd p4) / 2 = y /\
  (fst p2 - fst p1) ^ 2 + (snd p2 - snd p1) ^ 2 = rw ^ 2 /\
  (fst p3 - fst p2) ^ 2 + (snd p3 - snd p2) ^ 2 = rh ^ 2 /\
  (fst p4 - fst p3) ^ 2 + (snd p4 - snd p3) ^ 2 = rw ^ 2 /\
  (fst p1 - fst p4) ^ 2 + (snd p1 - snd p4) ^ 2 = rh ^ 2 /\
  (fst p2 - fst p1) * (fst p3 - fst p2)
  + (snd p2 - snd p1) * (snd p3 - snd p2) = 0.
Proof.
  unfold exact_corners, corners, trunc_point. cbn [fst snd].
  pose proof (sin2_cos2 (radians (IZR angle) + PI / 2)) as Hunit.
  unfold Rsqr in Hunit.
  set (c := cos (radians (IZR angle) + PI / 2)) in *.
  set (s := sin (radians (IZR angle) + PI / 2)) in *.
  split; [reflexivity |].
  repeat split; try field.
  - transitivity (rw ^ 2 * (s * s + c * c)); [field | rewrite Hunit; ring].
  - transitivity (rh ^ 2 * (s * s + c * c)); [field | rewrite Hunit; ring].
  - transitivity (rw ^ 2 * (s * s + c * c)); [field | rewrite Hunit; ring].
  - transitivity (rh ^ 2 * (s * s + c * c)); [field | rewrite Hunit; ring].
Qed.



Lemma centre10_drawn :
  exists d,
    draw_line Inputs.img200 Inputs.r_img282 [] Inputs.centre10 = Ok d.
Proof.
  assert (Hzone : in_ambiguous_zone
                    (restrict_angle90 (l_angle Inputs.centre10)) = false).
  { change (restrict_angle90 (l_angle Inputs.centre10)) with 10%Z.
    apply not_ambiguous_zone. lra. }
  destruct (draw_line_outside_zone Inputs.img200 Inputs.r_img282 []
              Inputs.centre10 Hzone) as (d & Hd & _).
  exists d. exact Hd.
Defined.


Lemma Int_part_le (a b : R) : a <= b -> (Int_part a <= Int_part b)%Z.
Proof.
  intros H. destruct (base_Int_part a) as [Ha _].
  destruct (base_Int_part b) as [_ Hb].
  apply Z.lt_succ_r. apply lt_IZR. rewrite succ_IZR. lra.
Qed.

(** [int] is monotone. *)
Lemma trunc_le (a b : R) : a <= b -> (trunc a <= trunc b)%Z.
Proof.
  intros H. unfold trunc.
  destruct (Rle_dec 0 a) as [Ha | Ha]; destruct (Rle_dec 0 b) as [Hb | Hb].
  - apply Int_part_le. exact H.
  - lra.
  - pose proof (Int_part_nonneg (- a) ltac:(lra)).
    pose proof (Int_part_nonneg b Hb). lia.
  - pose proof (Int_part_le (- b) (- a) ltac:(lra)). lia.
Qed.

(** X20: the yellow box is computed from the extents as detected, swapped
    or not, and for non-negative extents it is well formed and holds the
    pixel where the angle is written. *)
Theorem yellow_box_around_centre (img r_img : image) (rlines : list label)
    (line : label) (d : drawing) :
  0 <= l_w line -> 0 <= l_h line ->
  (0 <= shape0 img)%Z -> (0 <= shape1 img)%Z ->
  draw_line img r_img rlines line = Ok d ->
  let x := l_x line * IZR (shape1 img) in
  let y := l_y line * IZR (shape0 img) in
  let w0 := l_w line * IZR (shape1 img) in
  let h0 := l_h line * IZR (shape0 img) in
  yellow_box d = (trunc (x - w0 / 2), trunc (x + w0 / 2),
                  trunc (y - h0 / 2), trunc (y + h0 / 2)) /\
  text_at d = (l_angle line, (trunc x, trunc y)) /\
  (let '(xmin, xmax, ymin, ymax) := yellow_box d in
   (xmin <= trunc x <= xmax)%Z /\ (ymin <= trunc y <= ymax)%Z).
Proof.
  intros Hw Hh H0 H1 Hd. cbv zeta.
  apply IZR_le in H0, H1.
  assert (Hw0 : 0 <= l_w line * IZR (shape1 img))
    by (apply Rmult_le_pos; assumption).
  assert (Hh0 : 0 <= l_h line * IZR (shape0 img))
    by (apply Rmult_le_pos; assumption).
  assert (Hfields :
            yellow_box d
            = (trunc (l_x line * IZR (shape1 img)
                      - l_w line * IZR (shape1 img) / 2),
               trunc (l_x line * IZR (shape1 img)
                      + l_w line * IZR (shape1 img) / 2),
               trunc (l_y line * IZR (shape0 img)
                      - l_h line * IZR (shape0 img) / 2),
               trunc (l_y line * IZR (shape0 img)
                      + l_h line * IZR (shape0 img) / 2)) /\
            text_at d = (l_angle line,
                         (trunc (l_x line * IZR (shape1 img)),
                          trunc (l_y line * IZR (shape0 img))))).
  { unfold draw_line in Hd. rewrite swap_axes_spec in Hd.
    destruct (negb (restrict_angle90 (l_angle line) =? 0)%Z
              && negb (restrict_angle90 (l_angle line) =? 90)%Z).
    - destruct (if in_ambiguous_zone _ then _ else _) as [[rw rh] | e];
        [| discriminate].
      cbn [bind] in Hd. injection Hd as <-. split; reflexivity.
    - injection Hd as <-. split; reflexivity. }
  destruct Hfields as [Hy Ht].
  split; [exact Hy |]. split; [exact Ht |].
  rewrite Hy. repeat split; apply trunc_le; lra.
Qed.

Lemma yellow_box_around_centre_witness :
  0 <= ChooseBox.l_w Inputs.centre10 /\ 0 <= ChooseBox.l_h Inputs.centre10 /\
  (0 <= ChooseBox.shape0 Inputs.img200)%Z /\
  (0 <= ChooseBox.shape1 Inputs.img200)%Z /\
  exists d,
    ChooseBox.draw_line Inputs.img200 Inputs.r_img282 [] Inputs.centre10
    = Ok d /\
    ChooseBox.text_at d
    = (10%Z, (ChooseBox.trunc (0.5 * 200), ChooseBox.trunc (0.5 * 200))).
Proof.
  assert (Hw : 0 <= l_w Inputs.centre10) by (cbn; lra).
  assert (Hh : 0 <= l_h Inputs.centre10) by (cbn; lra).
  assert (H0 : (0 <= shape0 Inputs.img200)%Z) by (cbn; lia).
  assert (H1 : (0 <= shape1 Inputs.img200)%Z) by (cbn; lia).
  repeat (split; [assumption |]).
  destruct centre10_drawn as (d & Hd).
  exists d. split; [exact Hd |].
  exact (proj1 (proj2 (yellow_box_around_centre Inputs.img200 Inputs.r_img282
                         [] Inputs.centre10 d Hw Hh H0 H1 Hd))).
Defined.





End DrawingMore.

(** * The curves of utils/plots.py *)

Section TopkCDF.

Import Val Plots.
Open Scope Q_scope.

Lemma sumQ_le {A : Type} (f g : A -> Q) (l : list A) :
  (forall x, In x l -> f x <= g x) -> sumQ (map f l) <= sumQ (map g l).
Proof.
  induction l as [| x l IH]; intros H; simpl; [apply Qle_refl |].
  apply Qplus_le_compat; [apply H; left; reflexivity |].
  apply IH. intros y Hy. apply H. right. exact Hy.
Qed.

Lemma sumQ_eq {A : Type} (f g : A -> Q) (l : list A) :
  (forall x, In x l -> f x == g x) -> sumQ (map f l) == sumQ (map g l).
Proof.
  induction l as [| x l IH]; intros H; simpl; [reflexivity |].
  rewrite (H x (or_introl eq_refl)), IH; [reflexivity |].
  intros y Hy. apply H. right. exact Hy.
Qed.

Lemma sumQ_nonneg (l : list Q) : Forall (fun q => 0 <= q) l -> 0 <= sumQ l.
Proof.
  induction 1 as [| q l Hq _ IH]; simpl; [apply Qle_refl |].
  replace 0 with (0 + 0) by reflexivity. apply Qplus_le_compat; assumption.
Qed.

Lemma sumQ_firstn_le (l : list Q) :
  Forall (fun q => 0 <= q) l ->
  forall i j, (i <= j)%nat -> sumQ (firstn i l) <= sumQ (firstn j l).
Proof.
  induction 1 as [| q l Hq Hl IH]; intros i j Hij.
  - rewrite !firstn_nil. apply Qle_refl.
  - destruct i as [| i]; destruct j as [| j]; try lia.
    + apply Qle_refl.
    + cbn [firstn sumQ fold_right].
      replace 0 with (0 + 0) by reflexivity.
      apply Qplus_le_compat; [exact Hq |].
      apply (IH 0%nat j). lia.
    + cbn [firstn sumQ fold_right].
      apply Qplus_le_compat; [apply Qle_refl |].
      apply IH. lia.
Qed.

Lemma ind_nonneg (b : bool) : 0 <= ind b.
Proof. destruct b; discriminate. Qed.

Lemma where_le_row_nonneg (t : Z) (row : list Z) :
  Forall (fun q => 0 <= q)
    (map (fun b => if (b <=? t)%Z then 1 else 0) row).
Proof.
  apply Forall_map. apply Forall_forall. intros b _.
  destruct (b <=? t)%Z; discriminate.
Qed.

Lemma prefix_sum_mono (t : Z) (B : list (list Z)) (i j : nat) :
  (i <= j)%nat ->
  prefix_sum (where_le B t) i <= prefix_sum (where_le B t) j.
Proof.
  intros Hij. unfold prefix_sum, where_le. rewrite !map_map.
  apply sumQ_le. intros row _.
  apply sumQ_firstn_le; [apply where_le_row_nonneg | lia].
Qed.

Lemma prefix_sum_first (t : Z) (B : list (list Z)) :
  nonempty_rows B ->
  prefix_sum (where_le B t) 0 == sumQ (map (fun row => ind (head_le t row)) B).
Proof.
  intros Hne. unfold prefix_sum, where_le. rewrite map_map.
  apply sumQ_eq. intros row Hin.
  unfold nonempty_rows in Hne. rewrite Forall_forall in Hne.
  specialize (Hne row Hin).
  destruct row as [| b0 row]; [congruence |].
  cbn [map firstn sumQ fold_right head_le].
  change (if (b0 <=? t)%Z then 1 else 0) with (ind (b0 <=? t)%Z).
  apply Qplus_0_r.
Qed.

Lemma ind_any_le_sum (t : Z) (row : list Z) :
  ind (any_le t row) <= sumQ (map (fun b => if (b <=? t)%Z then 1 else 0) row).
Proof.
  unfold any_le. induction row as [| b row IH]; simpl; [apply Qle_refl |].
  pose proof (sumQ_nonneg _ (where_le_row_nonneg t row)) as Hpos.
  destruct (b <=? t)%Z; simpl.
  - replace 1 with (1 + 0) at 1 by reflexivity.
    apply Qplus_le_compat; [apply Qle_refl | exact Hpos].
  - rewrite Qplus_0_l. exact IH.
Qed.

Lemma prefix_sum_last (t : Z) (k : nat) (B : list (list Z)) :
  Forall (fun row => length row = k) B ->
  sumQ (map (fun row => ind (any_le t row)) B)
  <= prefix_sum (where_le B t) (k - 1).
Proof.
  intros Hk. unfold prefix_sum, where_le. rewrite map_map.
  apply sumQ_le. intros row Hin.
  rewrite Forall_forall in Hk. specialize (Hk row Hin).
  rewrite firstn_all2 by (rewrite length_map; lia).
  apply ind_any_le_sum.
Qed.

Lemma bias_rows_row_length (k : nat) (pred : list (list Z)) :
  forall targets,
    Forall (fun row => length row = k) pred ->
    Forall (fun row => length row = k) (bias_rows pred targets).
Proof.
  unfold bias_rows.
  induction pred as [| row pred IH]; intros targets H; simpl.
  - constructor.
  - destruct targets; [constructor |].
    inversion H; subst. constructor; [| apply IH; assumption].
    cbn [fst snd]. rewrite length_map. reflexivity.
Qed.

Lemma Qdiv_le_compat (a b c : Q) : 0 <= c -> a <= b -> a / c <= b / c.
Proof.
  intros Hc Hab. unfold Qdiv. apply Qmult_le_compat_r; [exact Hab |].
  apply Qinv_le_0_compat. exact Hc.
Qed.

(** X22: fed the tensor [correct] of a non-empty [n x k] batch,
    [Plot_Topk_CDF] plots [k] values, the sums of the first [i+1] columns
    over [n].  The first is the top-1 accuracy, the curve never decreases,
    and its last value is at least the top-K accuracy (it counts every hit
    of a row, not whether the row has one). *)
Theorem topk_cdf_of_correct (n k : nat) (pred pred_post : list (list Z))
    (targets : list Z) (t : Z) :
  (0 < n)%nat -> (0 < k)%nat ->
  has_shape n k pred -> has_shape n k pred_post -> length targets = n ->
  exists r,
    CalculateTopk_and_GetWrongSample pred pred_post targets t = Ok r /\
    Plot_Topk_CDF (res_correct r)
    = Ok (map (fun i => prefix_sum (res_correct r) i / inject_Z (Z.of_nat n))
            (seq 0 k)) /\
    is_value (top1 r) (prefix_sum (res_correct r) 0 / inject_Z (Z.of_nat n)) /\
    (forall i j, (i <= j)%nat ->
       prefix_sum (res_correct r) i / inject_Z (Z.of_nat n)
       <= prefix_sum (res_correct r) j / inject_Z (Z.of_nat n)) /\
    le_value (top5 r)
      (Some (prefix_sum (res_correct r) (k - 1) / inject_Z (Z.of_nat n))).
Proof.
  intros Hn Hk [Hp Hrows] [Hq _] Ht.
  assert (Hne : nonempty_rows pred).
  { apply (has_shape_nonempty n k); [exact Hk | split; assumption]. }
  assert (Hok : ok_shape pred pred_post targets).
  { unfold ok_shape. repeat split; try lia. exact Hne. }
  destruct (CalculateTopk_fields pred pred_post targets t Hok)
    as (r & Hr & _ & Hpair & _ & Hc & _).
  rewrite final_bias_full in Hpair, Hc by congruence.
  set (B := bias_rows pred targets) in *.
  assert (HBne : nonempty_rows B) by (apply bias_rows_nonempty; exact Hne).
  assert (HBlen : length B = n).
  { unfold B. rewrite bias_rows_length by congruence. exact Hp. }
  assert (HBk : Forall (fun row => length row = k) B)
    by (apply bias_rows_row_length; exact Hrows).
  assert (Hnpos : 0 <= inject_Z (Z.of_nat n)).
  { change 0 with (inject_Z 0). rewrite <- Zle_Qle. lia. }
  unfold acc_pair in Hpair. injection Hpair as H1 H5.
  exists r. split; [exact Hr |]. rewrite Hc.
  split; [| split; [| split]].
  - unfold Plot_Topk_CDF.
    destruct B as [| row0 B'] eqn:EB; [simpl in HBlen; lia |].
    rewrite <- EB in *. unfold where_le at 1. rewrite EB at 1. cbn [map].
    fold (where_le B t).
    assert (Hrow0 : length (map (fun b => if (b <=? t)%Z then 1 else 0) row0)
                    = k).
    { rewrite length_map. rewrite EB in HBk. inversion HBk; assumption. }
    replace (map (fun b => if (b <=? t)%Z then 1 else 0) row0
             :: where_le B' t) with (where_le B t)
      by (rewrite EB; reflexivity).
    rewrite (column0_ok t B HBne). cbn [bind].
    rewrite Hrow0.
    replace (length (where_le B t)) with n
      by (unfold where_le; rewrite length_map; symmetry; exact HBlen).
    reflexivity.
  - rewrite H1. unfold mean.
    destruct (map (fun row => ind (head_le t row)) B) as [| q l] eqn:E.
    + apply (f_equal (@length _)) in E. rewrite length_map, HBlen in E.
      simpl in E. lia.
    + rewrite <- E. cbn [is_value]. rewrite length_map, HBlen.
      rewrite (prefix_sum_first t B HBne). reflexivity.
  - intros i j Hij. apply Qdiv_le_compat; [exact Hnpos |].
    apply prefix_sum_mono. exact Hij.
  - rewrite H5. unfold mean.
    destruct (map (fun row => ind (any_le t row)) B) as [| q l] eqn:E.
    + apply (f_equal (@length _)) in E. rewrite length_map, HBlen in E.
      simpl in E. lia.
    + rewrite <- E. cbn [le_value]. rewrite length_map, HBlen.
      apply Qdiv_le_compat; [exact Hnpos |].
      apply prefix_sum_last. exact HBk.
Qed.

Lemma topk_cdf_of_correct_witness :
  (0 < 2)%nat /\ (0 < 3)%nat /\
  Val.has_shape 2 3 [[10; 190; 50]; [200; 8; 300]]%Z /\
  Val.has_shape 2 3 [[10; 190; 50]; [200; 8; 300]]%Z /\
  length [15; 5]%Z = 2%nat /\
  exists r,
    Val.CalculateTopk_and_GetWrongSample
      [[10; 190; 50]; [200; 8; 300]]%Z [[10; 190; 50]; [200; 8; 300]]%Z
      [15; 5]%Z 10 = Ok r /\
    Val.is_value (Val.top1 r)
      (Plots.prefix_sum (Val.res_correct r) 0 / inject_Z (Z.of_nat 2)) /\
    Val.le_value (Val.top5 r)
      (Some (Plots.prefix_sum (Val.res_correct r) (3 - 1)
             / inject_Z (Z.of_nat 2))).
Proof.
  assert (Hs : Val.has_shape 2 3 [[10; 190; 50]; [200; 8; 300]]%Z).
  { split; [reflexivity | repeat constructor]. }
  assert (Hn : (0 < 2)%nat) by lia.
  assert (Hk : (0 < 3)%nat) by lia.
  repeat (split; [assumption || reflexivity |]).
  destruct (topk_cdf_of_correct 2 3 _ _ [15; 5]%Z 10 Hn Hk Hs Hs eq_refl)
    as (r & Hr & _ & H1 & _ & H5).
  exists r. repeat split; assumption.
Defined.

(** Two rows with two hits each: the curve ends on 2, not on an accuracy;
    and a tensor without rows has no first row. *)
Example topk_cdf_exceeds_one :
  Plot_Topk_CDF [[1; 1; 0]; [0; 1; 1]] = Ok [1 # 2; 3 # 2; 4 # 2] /\
  Plot_Topk_CDF [] = Err IndexError /\
  Plot_Topk_CDF [[]; []] = Err IndexError.
Proof. repeat split; vm_compute; reflexivity. Qed.

End TopkCDF.

Section BiasCDF.

Import Val Plots.
Open Scope Z_scope.

Lemma weight_counter_add (p : Z -> bool) (e : Z) (c : list (Z * nat)) :
  weight p (counter_add e c)
  = Nat.add (weight p c) (if p e then 1%nat else 0%nat).
Proof.
  unfold weight. induction c as [| [e' n] c IH]; simpl.
  - destruct (p e); reflexivity.
  - destruct (Z.eqb_spec e' e) as [-> | Hne]; simpl.
    + destruct (p e); lia.
    + rewrite IH. lia.
Qed.

Lemma keys_counter_add (e : Z) (c : list (Z * nat)) (k : Z) :
  In k (map fst (counter_add e c)) <-> k = e \/ In k (map fst c).
Proof.
  induction c as [| [e' n] c IH]; simpl.
  - intuition.
  - destruct (Z.eqb_spec e' e) as [-> | Hne]; simpl; [intuition |].
    rewrite IH. intuition.
Qed.

Lemma nodup_counter_add (e : Z) (c : list (Z * nat)) :
  NoDup (map fst c) -> NoDup (map fst (counter_add e c)).
Proof.
  induction c as [| [e' n] c IH]; simpl; intros H.
  - constructor; [intros [] | constructor].
  - inversion H as [| ? ? Hnotin Hrest]; subst.
    destruct (Z.eqb_spec e' e) as [-> | Hne]; simpl.
    + constructor; assumption.
    + constructor; [| apply IH; exact Hrest].
      rewrite keys_counter_add. intros [Heq | Hin]; congruence.
Qed.

Lemma Counter_fold (p : Z -> bool) (l : list Z) :
  forall c,
    NoDup (map fst c) ->
    let c' := fold_left (fun c e => counter_add e c) l c in
    weight p c' = Nat.add (weight p c) (length (filter p l)) /\
    NoDup (map fst c') /\
    (forall k, In k (map fst c') <-> In k (map fst c) \/ In k l).
Proof.
  induction l as [| e l IH]; intros c Hc; cbn zeta.
  - simpl. repeat split; try assumption; try lia; intuition.
  - cbn [fold_left filter].
    destruct (IH (counter_add e c) (nodup_counter_add e c Hc))
      as (Hw & Hn & Hk).
    cbn zeta in Hw, Hn, Hk.
    split; [| split; [exact Hn |]].
    + rewrite Hw, weight_counter_add. destruct (p e); simpl; lia.
    + intros k. rewrite Hk, keys_counter_add. simpl. intuition.
Qed.

(** A counter records, for any property of the values, as many
    occurrences as the list has. *)
Lemma Counter_spec (p : Z -> bool) (l : list Z) :
  weight p (Counter l) = length (filter p l) /\
  NoDup (map fst (Counter l)) /\
  (forall k, In k (map fst (Counter l)) <-> In k l).
Proof.
  destruct (Counter_fold p l [] (NoDup_nil _)) as (Hw & Hn & Hk).
  cbn zeta in *. unfold Counter.
  split; [exact Hw |]. split; [exact Hn |].
  intros k. rewrite Hk. simpl. intuition.
Qed.

Lemma insert_item_perm (a : Z * nat) (l : list (Z * nat)) :
  Permutation (insert_item a l) (a :: l).
Proof.
  induction l as [| b l IH]; simpl; [reflexivity |].
  destruct (item_le a b); [reflexivity |].
  rewrite IH. apply perm_swap.
Qed.

Lemma sorted_perm (items : list (Z * nat)) :
  Permutation (sorted items) items.
Proof.
  induction items as [| a items IH]; simpl; [reflexivity |].
  rewrite insert_item_perm, IH. reflexivity.
Qed.

Lemma weight_insert (p : Z -> bool) (a : Z * nat) (l : list (Z * nat)) :
  weight p (insert_item a l) = weight p (a :: l).
Proof.
  unfold weight. induction l as [| b l IH]; simpl; [reflexivity |].
  destruct (item_le a b); simpl; [reflexivity |].
  rewrite IH. simpl. lia.
Qed.

Lemma weight_sorted (p : Z -> bool) (items : list (Z * nat)) :
  weight p (sorted items) = weight p items.
Proof.
  induction items as [| a items IH]; simpl; [reflexivity |].
  rewrite weight_insert. unfold weight in *. simpl. rewrite IH. reflexivity.
Qed.

Lemma insert_item_sorted (a : Z * nat) (l : list (Z * nat)) :
  Sorted (fun x y => fst x <= fst y) l ->
  Sorted (fun x y => fst x <= fst y) (insert_item a l).
Proof.
  induction l as [| b l IH]; simpl; intros H.
  - repeat constructor.
  - inversion H as [| ? ? Hs Hhd]; subst.
    destruct (item_le a b) eqn:E.
    + constructor; [exact H |]. constructor.
      unfold item_le in E. apply orb_true_iff in E.
      destruct E as [E | E]; [apply Z.ltb_lt in E; lia |].
      apply andb_true_iff in E. destruct E as [E _].
      apply Z.eqb_eq in E. lia.
    + assert (Hba : fst b <= fst a).
      { unfold item_le in E. apply orb_false_iff in E.
        destruct E as [E _]. apply Z.ltb_ge in E. exact E. }
      constructor; [apply IH; exact Hs |].
      destruct l as [| c l]; simpl.
      * constructor. exact Hba.
      * destruct (item_le a c); constructor; [exact Hba |].
        inversion Hhd; assumption.
Qed.

Lemma sorted_keys_increasing (items : list (Z * nat)) :
  NoDup (map fst items) -> StronglySorted Z.lt (map fst (sorted items)).
Proof.
  intros Hnd.
  assert (Hs : Sorted (fun x y => fst x <= fst y) (sorted items)).
  { induction items as [| a items IH]; simpl; [constructor |].
    apply insert_item_sorted. apply IH. inversion Hnd; assumption. }
  assert (Hnd' : NoDup (map fst (sorted items))).
  { eapply Permutation_NoDup; [| exact Hnd].
    apply Permutation_map. symmetry. apply sorted_perm. }
  apply Sorted_StronglySorted in Hs; [| intros x y z; lia].
  revert Hs Hnd'. generalize (sorted items) as S. clear.
  induction S as [| a S IH]; simpl; intros Hs Hnd; [constructor |].
  inversion Hs as [| ? ? Hs' Hall]; inversion Hnd as [| ? ? Hnotin Hnd'];
    subst.
  constructor; [apply IH; assumption |].
  apply Forall_forall. intros k Hk.
  apply in_map_iff in Hk. destruct Hk as (b & <- & Hb).
  rewrite Forall_forall in Hall. specialize (Hall b Hb).
  assert (fst a <> fst b).
  { intros Heq. apply Hnotin. rewrite Heq. apply in_map. exact Hb. }
  lia.
Qed.

Lemma weight_cons (p : Z -> bool) (a : Z * nat) (S : list (Z * nat)) :
  weight p (a :: S)
  = Nat.add (if p (fst a) then snd a else 0%nat) (weight p S).
Proof. reflexivity. Qed.

Lemma weight_zero (p : Z -> bool) (S : list (Z * nat)) :
  Forall (fun k => p k = false) (map fst S) -> weight p S = 0%nat.
Proof.
  unfold weight. induction S as [| a S IH]; simpl; intros H; [reflexivity |].
  inversion H as [| ? ? Ha Hrest]; subst. rewrite Ha, IH by exact Hrest.
  reflexivity.
Qed.

(** Along keys in increasing order, the occurrences of the values up to
    the [j]-th key are those of the first [j+1] items. *)
Lemma prefix_by_key (S : list (Z * nat)) :
  StronglySorted Z.lt (map fst S) ->
  forall j e,
    nth_error (map fst S) j = Some e ->
    weight (fun k => k <=? e) S = list_sum (firstn (Datatypes.S j) (map snd S)).
Proof.
  induction S as [| a S IH]; intros Hs j e Hj.
  - destruct j; discriminate.
  - simpl in Hs. inversion Hs as [| ? ? Hs' Hall]; subst.
    destruct j as [| j]; simpl in Hj.
    + injection Hj as <-.
      rewrite weight_cons, Z.leb_refl.
      rewrite weight_zero.
      * cbn [map firstn]. simpl. lia.
      * eapply Forall_impl; [| exact Hall].
        intros k Hk. apply Z.leb_gt. exact Hk.
    + assert (Hlt : fst a < e).
      { rewrite Forall_forall in Hall. apply Hall.
        eapply nth_error_In. exact Hj. }
      rewrite weight_cons, (IH Hs' j e Hj).
      destruct (Z.leb_spec (fst a) e); [| lia].
      change (firstn (Datatypes.S (Datatypes.S j)) (map snd (a :: S)))
        with (snd a :: firstn (Datatypes.S j) (map snd S)).
      reflexivity.
Qed.

Lemma list_sum_weight (S : list (Z * nat)) :
  list_sum (map snd S) = weight (fun _ => true) S.
Proof. unfold weight. reflexivity. Qed.

Lemma filter_true_length {A : Type} (l : list A) :
  length (filter (fun _ => true) l) = length l.
Proof. induction l; simpl; congruence. Qed.

(** X23: the curve [Plot_Bias_Top1_CDF] draws from a list of biases is its
    empirical distribution in percent: the abscissas are the distinct
    biases in increasing order, and the ordinate at [e] is 100 times the
    share of the biases that are at most [e]. *)
Theorem bias_curve_is_empirical_cdf (bias : list Z) :
  let '(elements, percents) := bias_curve bias in
  StronglySorted Z.lt elements /\
  (forall e, In e elements <-> In e bias) /\
  length percents = length elements /\
  (forall j e, nth_error elements j = Some e ->
               nth_error percents j = Some (percent_at_most bias e)).
Proof.
  unfold bias_curve. cbv zeta.
  destruct (Counter_spec (fun _ => true) bias) as (_ & Hnd & Hkeys).
  assert (Hsorted : StronglySorted Z.lt (map fst (sorted (Counter bias))))
    by (apply sorted_keys_increasing; exact Hnd).
  split; [exact Hsorted |]. split; [| split].
  - intros e. rewrite <- Hkeys. split; intros H.
    + eapply Permutation_in; [| exact H].
      apply Permutation_map. apply sorted_perm.
    + eapply Permutation_in; [| exact H].
      apply Permutation_map. symmetry. apply sorted_perm.
  - unfold cumulative_percent. rewrite length_map, length_seq, !length_map.
    reflexivity.
  - intros j e Hj.
    assert (Hlt : (j < length (map snd (sorted (Counter bias))))%nat).
    { rewrite length_map, <- (length_map fst).
      apply nth_error_Some. congruence. }
    unfold cumulative_percent.
    rewrite nth_error_map, nth_error_seq.
    destruct (Nat.ltb_spec j (length (map snd (sorted (Counter bias)))));
      [| lia].
    cbn [option_map Nat.add]. unfold percent_at_most.
    rewrite <- (prefix_by_key _ Hsorted j e Hj).
    rewrite list_sum_weight, !weight_sorted.
    destruct (Counter_spec (fun k => k <=? e) bias) as (Hw & _).
    destruct (Counter_spec (fun _ => true) bias) as (Hw1 & _).
    rewrite Hw, Hw1, filter_true_length. reflexivity.
Qed.

(** The list [5, 165, 5, 40]: three distinct biases, half of the samples
    at most 5. *)
Example bias_curve_example :
  bias_curve [5; 165; 5; 40]
  = ([5; 40; 165],
     [(2 # 4) * 100; (3 # 4) * 100; (4 # 4) * 100]%Q) /\
  Plot_Bias_Top1_CDF None [] = [([], [])].
Proof. split; vm_compute; reflexivity. Qed.

Lemma filter_map_length {A B : Type} (f : A -> B) (p : B -> bool)
    (l : list A) :
  length (filter p (map f l)) = length (filter (fun x => p (f x)) l).
Proof.
  induction l as [| x l IH]; simpl; [reflexivity |].
  destruct (p (f x)); simpl; rewrite IH; reflexivity.
Qed.

Lemma filter_ext_in_length {A : Type} (p q : A -> bool) (l : list A) :
  Forall (fun x => p x = q x) l -> length (filter p l) = length (filter q l).
Proof.
  induction 1 as [| x l Hx _ IH]; simpl; [reflexivity |].
  rewrite Hx. destruct (q x); simpl; rewrite IH; reflexivity.
Qed.

(** X24: drawn from the [bias_ori] the evaluator returns, the ordinate of
    that distribution at [e] is 100 times the share of the samples whose
    rank-0 candidate is within [e] of the truth: the top-1 accuracy the
    sweep reports at threshold [e], in percent. *)
Theorem bias_cdf_is_top1_in_percent (pred pred_post : list (list Z))
    (targets : list Z) (threshold : Z) :
  ok_shape pred pred_post targets -> length pred = length targets ->
  exists r,
    CalculateTopk_and_GetWrongSample pred pred_post targets threshold = Ok r /\
    (forall e,
       percent_at_most (res_bias_ori r) e
       = (fraction (count_hits (top1_hit e) pred targets) (length targets)
          * 100)%Q) /\
    (pred <> [] ->
     is_value (top1 r) (percent_at_most (res_bias_ori r) threshold / 100)).
Proof.
  intros Hok Hlen.
  destruct (CalculateTopk_fields pred pred_post targets threshold Hok)
    as (r & Hr & _ & Hpair & _ & _ & _ & Hb & _).
  destruct Hok as (Hp & _ & Hne).
  rewrite fold_bias_ori in Hb. cbn [bias_ori init_state app] in Hb.
  assert (Hshare : forall e,
            percent_at_most (res_bias_ori r) e
            = (fraction (count_hits (top1_hit e) pred targets)
                 (length targets) * 100)%Q).
  { intros e. unfold percent_at_most, fraction, count_hits.
    rewrite Hb, filter_map_length, length_map, length_combine.
    replace (Nat.min (length pred) (length targets)) with (length targets)
      by lia.
    rewrite (filter_ext_in_length _ (top1_hit e)); [reflexivity |].
    eapply Forall_impl; [| exact (combine_fst_nonempty pred targets Hne)].
    intros s Hs. cbv beta in Hs. unfold top1_bias, top1_pred, top1_hit.
    destruct (fst s) as [| p0 row]; [congruence |].
    cbn [hd]. rewrite bias_of_min. reflexivity. }
  exists r. split; [exact Hr |]. split; [exact Hshare |].
  intros Hnil. rewrite Hshare.
  rewrite final_bias_full in Hpair by exact Hlen.
  destruct (acc_pair_fractions pred targets threshold Hlen Hnil) as [H1 _].
  rewrite <- Hpair in H1. cbn [fst] in H1. rewrite Hlen in H1.
  destruct (top1 r) as [q |]; [| contradiction].
  cbn [is_value] in *. rewrite H1. field.
Qed.

Lemma bias_cdf_is_top1_in_percent_witness :
  Val.ok_shape [[10; 190; 50]; [200; 8; 300]] [[10; 190; 50]; [200; 8; 300]]
    [15; 5] /\
  length [[10; 190; 50]; [200; 8; 300]] = length [15; 5] /\
  exists r,
    Val.CalculateTopk_and_GetWrongSample
      [[10; 190; 50]; [200; 8; 300]] [[10; 190; 50]; [200; 8; 300]]
      [15; 5] 10 = Ok r /\
    Plots.percent_at_most (Val.res_bias_ori r) 10
    = Qmult
        (Val.fraction
           (Val.count_hits (Val.top1_hit 10)
              [[10; 190; 50]; [200; 8; 300]] [15; 5]) 2) 100%Q.
Proof.
  split; [exact ok_shape_example |]. split; [reflexivity |].
  destruct (bias_cdf_is_top1_in_percent _ _ _ 10 ok_shape_example eq_refl)
    as (r & Hr & Hshare & _).
  exists r. split; [exact Hr |]. apply Hshare.
Defined.

End BiasCDF.
